(** * Consumer group lag (backend/pkg/owl/consumer_group_lag.go)

    A shallow embedding of the lag computation of the owl service and the
    properties its specification states about it.

    Go data is modelled as follows.
    - [int64] values are integers in [Z]; the arithmetic of the machine type
      is written out with [Int64.wrap] (two's complement wrap-around).
    - Go maps are [gmap]s.  A [range] loop over a map visits the entries in an
      order that the language leaves unspecified; the order is supplied by a
      [RangeOrder], and every theorem holds for all of them.
      Within one [RangeOrder] the order is a function of the map, whereas Go
      draws a new order at every [range] statement; statements that compare
      two evaluations therefore take two orders and compare up to the order
      of the slices.
    - [int] (partitionCount and partitionsWithOffset) is [Z] without
      wrap-around: both numbers are bounded by the [len] of a map, which is
      an [int] itself.
    - Go slices keep the difference between [nil] and an empty slice.
    - Pointers to reports, responses and blocks are the values they point
      to; the client is taken to return no [nil] response or block.
    - The Kafka client is an external collaborator: a record of state-passing
      functions over an abstract [World].  Its errors are opaque.
    - Logging and the context argument do not influence the result and are
      left out. *)

From stdpp Require Import gmap strings list fin_maps.

Local Open Scope Z_scope.

(** ** 64-bit signed integers *)

Module Int64.

Definition min_int : Z := - 2 ^ 63.
Definition max_int : Z := 2 ^ 63 - 1.

Definition in_range (z : Z) : Prop := min_int ≤ z ≤ max_int.

(** Reduction of a mathematical integer to the value an [int64] holds. *)
Definition wrap (z : Z) : Z := (z + 2 ^ 63) `mod` 2 ^ 64 - 2 ^ 63.

Definition add (a b : Z) : Z := wrap (a + b).
Definition sub (a b : Z) : Z := wrap (a - b).

(** The sum a Go loop [s += x] leaves in an [int64] accumulator. *)
Definition sum (l : list Z) : Z := foldl add 0 l.

(** The sum of the mathematical integers. *)
Definition sumZ (l : list Z) : Z := foldr Z.add 0 l.

End Int64.

(** ** Slices *)

(** A slice is either [nil] or refers to a (possibly empty) sequence. *)
Inductive slice (A : Type) : Type :=
  | SliceNil
  | SliceOf (l : list A).
Arguments SliceNil {A}.
Arguments SliceOf {A} l.

(** [make([]T, 0)] *)
Definition make {A} : slice A := SliceOf [].

Definition elems {A} (s : slice A) : list A :=
  match s with SliceNil => [] | SliceOf l => l end.

(** [append(s, x)] *)
Definition append {A} (s : slice A) (x : A) : slice A := SliceOf (elems s ++ [x]).

Definition is_nil {A} (s : slice A) : bool :=
  match s with SliceNil => true | SliceOf _ => false end.

(** ** Report model *)

(** [type partitionOffsets map[int32]int64] *)
Abbreviation partitionOffsets := (gmap Z Z).

Record PartitionLag := {
  PartitionID : Z;
  Lag : Z
}.

Record TopicLag := {
  Topic : string;
  SummedLag : Z;
  PartitionCount : Z;
  PartitionsWithOffset : Z;
  PartitionLags : slice PartitionLag
}.

Record ConsumerGroupLag := {
  GroupID : string;
  TopicLags : slice TopicLag
}.

(** [GetTopicLag]: linear scan, [None] stands for the [nil] pointer. *)
Fixpoint scanTopicLag (topicName : string) (lags : list TopicLag) : option TopicLag :=
  match lags with
  | [] => None
  | lag :: rest =>
      if decide (Topic lag = topicName) then Some lag
      else scanTopicLag topicName rest
  end.

Definition GetTopicLag (c : ConsumerGroupLag) (topicName : string) : option TopicLag :=
  scanTopicLag topicName (elems (TopicLags c)).

(** ** The response of the offset fetch (sarama) *)

(** Only [Offset] is read by the computation.  A response may name a topic
    with an empty block map, and a block may carry the offset -1. *)

Record OffsetFetchResponseBlock := {
  Offset : Z;
  LeaderEpoch : Z;
  Metadata : string
}.

Record OffsetFetchResponse := {
  Blocks : gmap string (gmap Z OffsetFetchResponseBlock)
}.

(** ** Iteration order of [range] over a map *)

Class RangeOrder := {
  range : ∀ `{Countable K} {A : Type}, gmap K A → list (K * A);
  range_perm : ∀ `{Countable K} {A : Type} (m : gmap K A), range m ≡ₚ map_to_list m
}.

(** One possible order: the one of [map_to_list]. *)
Definition canonicalOrder : RangeOrder :=
  {| range := λ K _ _ A m, map_to_list m;
     range_perm := λ K _ _ A m, reflexivity (map_to_list m) |}.

(** Another one: the reverse. *)
Definition reverseOrder : RangeOrder :=
  {| range := λ K _ _ A m, reverse (map_to_list m);
     range_perm := λ K _ _ A m, reverse_Permutation (map_to_list m) |}.

Section Lag.
Context {order : RangeOrder}.

(** *** convertOffsets (lines 46-58) *)

Definition convertBlocks (blocks : gmap Z OffsetFetchResponseBlock) : partitionOffsets :=
  foldl (λ (pOffsets : partitionOffsets) e, <[e.1 := Offset e.2]> pOffsets) ∅ (range blocks).

Definition convertOffsets (offsets : OffsetFetchResponse) : gmap string partitionOffsets :=
  foldl (λ (res : gmap string partitionOffsets) e, <[e.1 := convertBlocks e.2]> res)
        ∅ (range (Blocks offsets)).

(** *** The join of one topic (lines 114-135) *)

Definition clampLag (lag : Z) : Z := if decide (lag < 0) then 0 else lag.

Definition partitionStep (pOffsets : partitionOffsets) (t : TopicLag) (e : Z * Z) : TopicLag :=
  let '(pID, watermark) := e in
  match pOffsets !! pID with
  | None => t
  | Some groupOffset =>
      let lag := clampLag (Int64.sub watermark groupOffset) in
      {| Topic := Topic t;
         SummedLag := Int64.add (SummedLag t) lag;
         PartitionCount := PartitionCount t;
         PartitionsWithOffset := PartitionsWithOffset t + 1;
         PartitionLags := append (PartitionLags t) {| PartitionID := pID; Lag := lag |} |}
  end.

Definition newTopicLag (topic : string) (partitionWaterMarks : gmap Z Z) : TopicLag :=
  {| Topic := topic;
     SummedLag := 0;
     PartitionCount := Z.of_nat (size partitionWaterMarks);
     PartitionsWithOffset := 0;
     PartitionLags := make |}.

Definition topicLag (topic : string) (pOffsets : partitionOffsets)
    (partitionWaterMarks : gmap Z Z) : TopicLag :=
  foldl (partitionStep pOffsets) (newTopicLag topic partitionWaterMarks)
        (range partitionWaterMarks).

End Lag.

(** ** Errors and the Kafka client *)

(** An error value of the Kafka client; only its message is kept. *)
Definition clientError : Type := string.

Inductive error : Type :=
  | ErrListOffsets
  | ErrPartitionList
  | ErrNoWatermark
  | ErrClient (e : clientError).

Definition errorMessage (e : error) : string :=
  match e with
  | ErrListOffsets => "failed to list consumer group offsets in bulk"
  | ErrPartitionList => "failed to fetch partition list for calculating the group lags"
  | ErrNoWatermark => "no partition watermark for the group's topic available"
  | ErrClient msg => msg
  end.

Inductive result (E A : Type) : Type :=
  | Ok (a : A)
  | Err (e : E).
Arguments Ok {E A} a.
Arguments Err {E A} e.

(** The three calls the computation makes on the Kafka service.  Each one may
    change the state of the world and may fail. *)
Record KafkaService (World : Type) := {
  ListConsumerGroupOffsetsBulk :
    list string → World → result clientError (gmap string OffsetFetchResponse) * World;
  Partitions :
    string → World → result clientError (list Z) * World;
  HighWaterMarks :
    gmap string (list Z) → World → result clientError (gmap string (gmap Z Z)) * World
}.
Arguments ListConsumerGroupOffsetsBulk {World} _ _ _.
Arguments Partitions {World} _ _ _.
Arguments HighWaterMarks {World} _ _ _.

(** ** The computation *)

Section Service.
Context {order : RangeOrder} {World : Type} (kafkaSvc : KafkaService World).

(** State of the world and failure. *)
Definition M (A : Type) : Type := World → result error A * World.

Definition ret {A} (a : A) : M A := λ w, (Ok a, w).

Definition bind {A B} (m : M A) (k : A → M B) : M B :=
  λ w, match m w with
       | (Ok a, w') => k a w'
       | (Err e, w') => (Err e, w')
       end.

(** A client call whose failure is replaced by the error [e]. *)
Definition callOr {A} (e : error) (call : World → result clientError A * World) : M A :=
  λ w, match call w with
       | (Ok a, w') => (Ok a, w')
       | (Err _, w') => (Err e, w')
       end.

(** A client call whose failure is handed on. *)
Definition callThrough {A} (call : World → result clientError A * World) : M A :=
  λ w, match call w with
       | (Ok a, w') => (Ok a, w')
       | (Err msg, w') => (Err (ErrClient msg), w')
       end.

Definition liftResult {A} (r : result error A) : M A := λ w, (r, w).

Notation "x ←← m ; k" := (bind m (λ x, k))
  (at level 20, m at level 100, k at level 200, only parsing).

(** Lines 69-72. *)
Definition groupOffsets (offsets : gmap string OffsetFetchResponse)
    : gmap string (gmap string partitionOffsets) :=
  foldl (λ (offsetsByGroup : gmap string (gmap string partitionOffsets)) e,
           <[e.1 := convertOffsets e.2]> offsetsByGroup)
        ∅ (range offsets).

(** Lines 76-81. *)
Definition consumedTopics (offsetsByGroup : gmap string (gmap string partitionOffsets))
    : list string :=
  foldl (λ (topics : list string) (g : string * gmap string partitionOffsets),
           foldl (λ (topics : list string) (e : string * partitionOffsets), topics ++ [e.1])
                 topics (range g.2))
        [] (range offsetsByGroup).

(** Lines 83-91. *)
Fixpoint listPartitions (topics : list string) (topicPartitions : gmap string (list Z))
    : M (gmap string (list Z)) :=
  match topics with
  | [] => ret topicPartitions
  | topic :: rest =>
      partitions ←← callOr ErrPartitionList (Partitions kafkaSvc topic);
      listPartitions rest (<[topic := partitions]> topicPartitions)
  end.

(** Lines 101-137: the topic lags of one group. *)
Fixpoint groupTopicLags (waterMarks : gmap string (gmap Z Z))
    (entries : list (string * partitionOffsets)) (topicLags : slice TopicLag)
    : result error (slice TopicLag) :=
  match entries with
  | [] => Ok topicLags
  | (topic, pOffsets) :: rest =>
      match waterMarks !! topic with
      | None => Err ErrNoWatermark
      | Some partitionWaterMarks =>
          groupTopicLags waterMarks rest
            (append topicLags (topicLag topic pOffsets partitionWaterMarks))
      end
  end.

(** Lines 99-145. *)
Fixpoint computeLags (offsetsByGroup : gmap string (gmap string partitionOffsets))
    (waterMarks : gmap string (gmap Z Z)) (groups : list string)
    (res : gmap string ConsumerGroupLag) : result error (gmap string ConsumerGroupLag) :=
  match groups with
  | [] => Ok res
  | group :: rest =>
      match groupTopicLags waterMarks (range (default ∅ (offsetsByGroup !! group))) make with
      | Err e => Err e
      | Ok topicLags =>
          computeLags offsetsByGroup waterMarks rest
            (<[group := {| GroupID := group; TopicLags := topicLags |}]> res)
      end
  end.

(** [getConsumerGroupLags] (lines 61-146). *)
Definition getConsumerGroupLags (groups : list string) : M (gmap string ConsumerGroupLag) :=
  offsets ←← callOr ErrListOffsets (ListConsumerGroupOffsetsBulk kafkaSvc groups);
  let offsetsByGroup := groupOffsets offsets in
  let topics := consumedTopics offsetsByGroup in
  topicPartitions ←← listPartitions topics ∅;
  waterMarks ←← callThrough (HighWaterMarks kafkaSvc topicPartitions);
  liftResult (computeLags offsetsByGroup waterMarks groups ∅).

End Service.

(** ** Observing the calls on the client *)

Inductive Call : Type :=
  | CallListOffsets (groups : list string)
  | CallPartitions (topic : string)
  | CallHighWaterMarks (topicPartitions : gmap string (list Z)).

(** A service that behaves like [svc] and records every call it receives. *)
Definition spy {World} (svc : KafkaService World) : KafkaService (World * list Call) :=
  {| ListConsumerGroupOffsetsBulk := λ groups s,
       let '(r, w) := ListConsumerGroupOffsetsBulk svc groups s.1 in
       (r, (w, s.2 ++ [CallListOffsets groups]));
     Partitions := λ topic s,
       let '(r, w) := Partitions svc topic s.1 in
       (r, (w, s.2 ++ [CallPartitions topic]));
     HighWaterMarks := λ tp s,
       let '(r, w) := HighWaterMarks svc tp s.1 in
       (r, (w, s.2 ++ [CallHighWaterMarks tp])) |}.

(** The topics the partition listing was asked for, in call order. *)
Definition listedTopics (log : list Call) : list string :=
  omap (λ c, match c with CallPartitions topic => Some topic | _ => None end) log.

(** ** A cluster snapshot as a service, for examples *)

Record Snapshot := {
  snapOffsets : result clientError (gmap string OffsetFetchResponse);
  snapPartitions : gmap string (list Z);
  snapWaterMarks : result clientError (gmap string (gmap Z Z))
}.

(** The offsets of the snapshot restricted to the requested groups, an error
    for an unknown topic, the watermarks whatever partitions are asked for. *)
Definition snapshotService (c : Snapshot) : KafkaService unit :=
  {| ListConsumerGroupOffsetsBulk := λ groups w,
       (match snapOffsets c with
        | Ok offsets => Ok (filter (λ e, e.1 ∈ groups) offsets)
        | Err e => Err e
        end, w);
     Partitions := λ topic w,
       (match snapPartitions c !! topic with
        | Some ps => Ok ps
        | None => Err "unknown topic"%string
        end, w);
     HighWaterMarks := λ _ w, (snapWaterMarks c, w) |}.

Definition block (offset : Z) : OffsetFetchResponseBlock :=
  {| Offset := offset; LeaderEpoch := 0; Metadata := "" |}.

(** The report of a run, empty when the run failed. *)
Definition reportOf {World} (r : result error (gmap string ConsumerGroupLag) * World)
    : gmap string ConsumerGroupLag :=
  match r.1 with Ok res => res | Err _ => ∅ end.

(** Group g1 has committed 100 and 50 on partitions 0 and 1 of topicA, which
    has a third partition; group g2 has committed nothing. *)
Definition scenarioOffsets : gmap string OffsetFetchResponse :=
  {[ "g1"%string :=
       {| Blocks := {[ "topicA"%string := {[ 0 := block 100; 1 := block 50 ]} ]} |} ]}.

Definition scenarioWaterMarks : gmap string (gmap Z Z) :=
  {[ "topicA"%string := {[ 0 := 120; 1 := 50; 2 := 30 ]} ]}.

Definition scenario : Snapshot :=
  {| snapOffsets := Ok scenarioOffsets;
     snapPartitions := {[ "topicA"%string := [0; 1; 2] ]};
     snapWaterMarks := Ok scenarioWaterMarks |}.

(** A stale watermark: offset 105 against watermark 100. *)
Definition staleOffsets : gmap string OffsetFetchResponse :=
  {[ "g1"%string := {| Blocks := {[ "topicA"%string := {[ 0 := block 105 ]} ]} |} ]}.

Definition staleWaterMarks : gmap string (gmap Z Z) :=
  {[ "topicA"%string := {[ 0 := 100 ]} ]}.

Definition stale : Snapshot :=
  {| snapOffsets := Ok staleOffsets;
     snapPartitions := {[ "topicA"%string := [0] ]};
     snapWaterMarks := Ok staleWaterMarks |}.

(** The largest watermark against the offset -1. *)
Definition extremeOffsets : gmap string OffsetFetchResponse :=
  {[ "g1"%string := {| Blocks := {[ "topicA"%string := {[ 0 := block (-1) ]} ]} |} ]}.

Definition extremeWaterMarks : gmap string (gmap Z Z) :=
  {[ "topicA"%string := {[ 0 := Int64.max_int ]} ]}.

Definition extreme : Snapshot :=
  {| snapOffsets := Ok extremeOffsets;
     snapPartitions := {[ "topicA"%string := [0] ]};
     snapWaterMarks := Ok extremeWaterMarks |}.

(** The offset -1 against an ordinary watermark. *)
Definition sentinelOffsets : gmap string OffsetFetchResponse :=
  {[ "g1"%string := {| Blocks := {[ "topicA"%string := {[ 0 := block (-1) ]} ]} |} ]}.

Definition sentinelWaterMarks : gmap string (gmap Z Z) :=
  {[ "topicA"%string := {[ 0 := 41 ]} ]}.

Definition sentinel : Snapshot :=
  {| snapOffsets := Ok sentinelOffsets;
     snapPartitions := {[ "topicA"%string := [0] ]};
     snapWaterMarks := Ok sentinelWaterMarks |}.

(** A response that names topicA without any partition block. *)
Definition bareTopicOffsets : gmap string OffsetFetchResponse :=
  {[ "g1"%string := {| Blocks := {[ "topicA"%string := ∅ ]} |} ]}.

Definition bareTopicWaterMarks : gmap string (gmap Z Z) :=
  {[ "topicA"%string := {[ 0 := 10 ]} ]}.

Definition bareTopic : Snapshot :=
  {| snapOffsets := Ok bareTopicOffsets;
     snapPartitions := {[ "topicA"%string := [0] ]};
     snapWaterMarks := Ok bareTopicWaterMarks |}.

(** Two groups that consume the same topic. *)
Definition sharedOffsets : gmap string OffsetFetchResponse :=
  {[ "g1"%string := {| Blocks := {[ "topicA"%string := {[ 0 := block 1 ]} ]} |};
     "g2"%string := {| Blocks := {[ "topicA"%string := {[ 0 := block 2 ]} ]} |} ]}.

Definition sharedWaterMarks : gmap string (gmap Z Z) :=
  {[ "topicA"%string := {[ 0 := 5 ]} ]}.

Definition shared : Snapshot :=
  {| snapOffsets := Ok sharedOffsets;
     snapPartitions := {[ "topicA"%string := [0] ]};
     snapWaterMarks := Ok sharedWaterMarks |}.

(** The watermark fetch leaves out the topic it was asked for. *)
Definition unanswered : Snapshot :=
  {| snapOffsets := Ok scenarioOffsets;
     snapPartitions := {[ "topicA"%string := [0; 1; 2] ]};
     snapWaterMarks := Ok ∅ |}.

(** The run on a snapshot, with the order of [map_to_list]. *)
Definition runSnapshot (c : Snapshot) (groups : list string)
    : result error (gmap string ConsumerGroupLag) * unit :=
  getConsumerGroupLags (order := canonicalOrder) (snapshotService c) groups tt.

Definition scenarioTopicLag : TopicLag :=
  {| Topic := "topicA";
     SummedLag := 20;
     PartitionCount := 3;
     PartitionsWithOffset := 2;
     PartitionLags :=
       SliceOf [ {| PartitionID := 1; Lag := 0 |}; {| PartitionID := 0; Lag := 20 |} ] |}.

Definition scenarioGroupLag : ConsumerGroupLag :=
  {| GroupID := "g1"; TopicLags := SliceOf [scenarioTopicLag] |}.

Definition scenarioReport : gmap string ConsumerGroupLag :=
  reportOf (runSnapshot scenario ["g1"; "g2"]%string).

(** ** Vocabulary of the specification *)

(** What the join contributes for one watermark entry: nothing when the group
    has no offset for the partition. *)
Definition joinEntry (pOffsets : partitionOffsets) (e : Z * Z) : option PartitionLag :=
  (λ groupOffset, {| PartitionID := e.1; Lag := clampLag (Int64.sub e.2 groupOffset) |})
    <$> pOffsets !! e.1.

Definition joinLags (pOffsets : partitionOffsets) (l : list (Z * Z)) : list PartitionLag :=
  omap (joinEntry pOffsets) l.

(** The offset map of a group; a group that is missing has the [nil] map. *)
Definition topicsOf (offsetsByGroup : gmap string (gmap string partitionOffsets))
    (group : string) : gmap string partitionOffsets :=
  default ∅ (offsetsByGroup !! group).

(** The group has an offset map for the topic. *)
Definition hasOffsetsFor (offsetsByGroup : gmap string (gmap string partitionOffsets))
    (group topic : string) : Prop :=
  is_Some (topicsOf offsetsByGroup group !! topic).

(** The offset the group has committed for a partition of a topic. *)
Definition committedOffset (offsetsByGroup : gmap string (gmap string partitionOffsets))
    (group topic : string) (pID : Z) : option Z :=
  topicsOf offsetsByGroup group !! topic ≫= λ pOffsets, pOffsets !! pID.

(** Reading the report: the topic lag of a group, the entry of a partition in
    a topic lag, the lag reported for a partition. *)
Definition topicLagOf (res : gmap string ConsumerGroupLag) (group topic : string)
    : option TopicLag :=
  res !! group ≫= λ c, GetTopicLag c topic.

Definition partitionLagOf (t : TopicLag) (pID : Z) : option PartitionLag :=
  snd <$> list_find (λ pl, PartitionID pl = pID) (elems (PartitionLags t)).

Definition reportedLag (res : gmap string ConsumerGroupLag) (group topic : string)
    (pID : Z) : option Z :=
  topicLagOf res group topic ≫= λ t, Lag <$> partitionLagOf t pID.

(** The partitions with a watermark for which the group has an offset. *)
Definition withOffset (pOffsets : partitionOffsets) (partitionWaterMarks : gmap Z Z)
    : gmap Z Z :=
  filter (λ e, is_Some (pOffsets !! e.1)) partitionWaterMarks.

(** Some requested group has offsets for a topic without watermarks. *)
Definition missingWatermark (offsetsByGroup : gmap string (gmap string partitionOffsets))
    (waterMarks : gmap string (gmap Z Z)) (groups : list string) : Prop :=
  ∃ group topic, group ∈ groups ∧ hasOffsetsFor offsetsByGroup group topic
                 ∧ waterMarks !! topic = None.

(** The topic lag an entry of a group's offset map gives rise to, if the
    topic has watermarks. *)
Definition entryLag {order : RangeOrder} (waterMarks : gmap string (gmap Z Z))
    (e : string * partitionOffsets) : option TopicLag :=
  topicLag e.1 e.2 <$> waterMarks !! e.1.

Section Stages.
Context {order : RangeOrder} {World : Type} (kafkaSvc : KafkaService World).

(** The fetches went through: offsets, partition lists and watermarks. *)
Definition fetched (groups : list string) (w : World)
    (offsets : gmap string OffsetFetchResponse) (waterMarks : gmap string (gmap Z Z))
    (w' : World) : Prop :=
  ∃ w1 topicPartitions w2,
    ListConsumerGroupOffsetsBulk kafkaSvc groups w = (Ok offsets, w1)
    ∧ listPartitions kafkaSvc (consumedTopics (groupOffsets offsets)) ∅ w1
      = (Ok topicPartitions, w2)
    ∧ HighWaterMarks kafkaSvc topicPartitions w2 = (Ok waterMarks, w').

(** The four ways the computation can go wrong, with the error each one
    gives and the world it leaves. *)
Inductive stageFailure (groups : list string) (w : World) : error → World → Prop :=
  | OffsetFetchFails e w1 :
      ListConsumerGroupOffsetsBulk kafkaSvc groups w = (Err e, w1) →
      stageFailure groups w ErrListOffsets w1
  | PartitionListFails offsets w1 listed topic rest topicPartitions w2 e w3 :
      ListConsumerGroupOffsetsBulk kafkaSvc groups w = (Ok offsets, w1) →
      consumedTopics (groupOffsets offsets) = listed ++ topic :: rest →
      listPartitions kafkaSvc listed ∅ w1 = (Ok topicPartitions, w2) →
      Partitions kafkaSvc topic w2 = (Err e, w3) →
      stageFailure groups w ErrPartitionList w3
  | WatermarkFetchFails offsets w1 topicPartitions w2 e w3 :
      ListConsumerGroupOffsetsBulk kafkaSvc groups w = (Ok offsets, w1) →
      listPartitions kafkaSvc (consumedTopics (groupOffsets offsets)) ∅ w1
        = (Ok topicPartitions, w2) →
      HighWaterMarks kafkaSvc topicPartitions w2 = (Err e, w3) →
      stageFailure groups w (ErrClient e) w3
  | WatermarkMissing offsets waterMarks w3 :
      fetched groups w offsets waterMarks w3 →
      missingWatermark (groupOffsets offsets) waterMarks groups →
      stageFailure groups w ErrNoWatermark w3.

End Stages.

(** ** Sentences of the specification, as they are written *)

(** The lag of a partition with watermark [w] and committed offset [o] is
    [w - o] when [w >= o] and 0 when [w < o].  The sentence does not say
    which subtraction it means, so it is stated for any: [Z.sub] reads it
    over the integers, [Int64.sub] in the arithmetic of the program. *)
Definition lagIsDifference (minus : Z → Z → Z) : Prop :=
  ∀ (order : RangeOrder) (World : Type) (kafkaSvc : KafkaService World)
    groups (w w' : World) offsets waterMarks res group topic pID pwm watermark groupOffset,
    fetched kafkaSvc groups w offsets waterMarks w' →
    getConsumerGroupLags kafkaSvc groups w = (Ok res, w') →
    group ∈ groups →
    waterMarks !! topic = Some pwm → pwm !! pID = Some watermark →
    committedOffset (groupOffsets offsets) group topic pID = Some groupOffset →
    Int64.in_range watermark → Int64.in_range groupOffset →
    reportedLag res group topic pID
    = Some (if decide (groupOffset ≤ watermark) then minus watermark groupOffset else 0).

(** A requested group without a committed offset on any partition of any
    topic has an entry with its id and an empty topicLags. *)
Definition groupWithoutOffsetsEmpty : Prop :=
  ∀ (order : RangeOrder) (World : Type) (kafkaSvc : KafkaService World)
    groups (w w' : World) offsets waterMarks res group,
    fetched kafkaSvc groups w offsets waterMarks w' →
    getConsumerGroupLags kafkaSvc groups w = (Ok res, w') →
    group ∈ groups →
    (∀ topic pID, committedOffset (groupOffsets offsets) group topic pID = None) →
    res !! group = Some {| GroupID := group; TopicLags := make |}.

(** A topic for which the group has no committed offset on any partition is
    absent from the group's topicLags. *)
Definition topicWithoutOffsetsAbsent : Prop :=
  ∀ (order : RangeOrder) (World : Type) (kafkaSvc : KafkaService World)
    groups (w w' : World) offsets waterMarks res group topic,
    fetched kafkaSvc groups w offsets waterMarks w' →
    getConsumerGroupLags kafkaSvc groups w = (Ok res, w') →
    group ∈ groups →
    (∀ pID, committedOffset (groupOffsets offsets) group topic pID = None) →
    topicLagOf res group topic = None.

(** The partition listing is asked for each topic at most once. *)
Definition topicsListedOnce : Prop :=
  ∀ (order : RangeOrder) (World : Type) (kafkaSvc : KafkaService World)
    groups (w : World),
    NoDup (listedTopics (getConsumerGroupLags (spy kafkaSvc) groups (w, [])).2.2).

(** The report of the stale watermark. *)
Definition staleTopicLag : TopicLag :=
  {| Topic := "topicA";
     SummedLag := 0;
     PartitionCount := 1;
     PartitionsWithOffset := 1;
     PartitionLags := SliceOf [ {| PartitionID := 0; Lag := 0 |} ] |}.

Definition staleGroupLag : ConsumerGroupLag :=
  {| GroupID := "g1"; TopicLags := SliceOf [staleTopicLag] |}.

(** The watermark fetch fails. *)
Definition brokerDown : Snapshot :=
  {| snapOffsets := Ok scenarioOffsets;
     snapPartitions := {[ "topicA"%string := [0; 1; 2] ]};
     snapWaterMarks := Err "broker down"%string |}.

(** The offsets of the blocks of one topic. *)
Definition blockOffsets (blocks : gmap Z OffsetFetchResponseBlock) : partitionOffsets :=
  Offset <$> blocks.

(** Two topic lags that differ at most in the order of their partitionLags. *)
Definition sameLag (t1 t2 : TopicLag) : Prop :=
  Topic t1 = Topic t2
  ∧ SummedLag t1 = SummedLag t2
  ∧ PartitionCount t1 = PartitionCount t2
  ∧ PartitionsWithOffset t1 = PartitionsWithOffset t2
  ∧ elems (PartitionLags t1) ≡ₚ elems (PartitionLags t2).

(** * Properties *)

(** ** Arithmetic of [int64] *)

Section Int64Facts.
Import Int64.

Lemma wrap_in_range z : in_range (wrap z).
Proof.
  unfold in_range, wrap, min_int, max_int.
  pose proof (Z.mod_pos_bound (z + 2 ^ 63) (2 ^ 64)). lia.
Qed.

Lemma wrap_id z : in_range z → wrap z = z.
Proof.
  unfold in_range, wrap, min_int, max_int. intros Hz.
  rewrite Z.mod_small; lia.
Qed.

Lemma wrap_add_l a b : wrap (wrap a + b) = wrap (a + b).
Proof.
  unfold wrap.
  replace ((a + 2 ^ 63) `mod` 2 ^ 64 - 2 ^ 63 + b + 2 ^ 63)
    with ((a + 2 ^ 63) `mod` 2 ^ 64 + b) by lia.
  rewrite Zplus_mod_idemp_l. do 2 f_equal. lia.
Qed.

Lemma add_comm_acc s a b : add (add s a) b = add (add s b) a.
Proof.
  unfold add. rewrite !wrap_add_l. f_equal. lia.
Qed.

Lemma foldl_add_wrap l s : foldl add s l = wrap (s + sumZ l) ∨ l = [].
Proof.
  revert s. induction l as [|x l IH]; intros s; [by right|left].
  simpl. destruct (IH (add s x)) as [->| ->].
  - unfold add. rewrite wrap_add_l. f_equal. lia.
  - simpl. unfold add. f_equal. lia.
Qed.

Lemma sum_wrap l : sum l = wrap (sumZ l).
Proof.
  unfold sum. destruct (foldl_add_wrap l 0) as [->| ->]; [done|].
  simpl. by rewrite wrap_id.
Qed.


Lemma sum_exact l : in_range (sumZ l) → sum l = sumZ l.
Proof. intros Hl. rewrite sum_wrap. by apply wrap_id. Qed.

Lemma sumZ_nonneg l : Forall (λ z, 0 ≤ z) l → 0 ≤ sumZ l.
Proof. induction 1 as [|z l Hz _ IH]; unfold sumZ in *; simpl; lia. Qed.

Lemma sub_exact a b : in_range (a - b) → sub a b = a - b.
Proof. apply wrap_id. Qed.

End Int64Facts.

Lemma clampLag_nonneg lag : 0 ≤ clampLag lag.
Proof. unfold clampLag. case_decide; lia. Qed.

Lemma clampLag_max lag : clampLag lag = Z.max 0 lag.
Proof. unfold clampLag. case_decide; lia. Qed.

(** ** The entries a [range] loop visits *)

Section RangeFacts.
Context {order : RangeOrder} `{Countable K} {A : Type}.
Implicit Types (m : gmap K A).

Lemma elem_of_range m k a : (k, a) ∈ range m ↔ m !! k = Some a.
Proof. rewrite (range_perm m). apply elem_of_map_to_list. Qed.

Lemma NoDup_fst_range m : NoDup (range m).*1.
Proof. rewrite (range_perm m). apply NoDup_fst_map_to_list. Qed.

Lemma length_range m : length (range m) = size m.
Proof. rewrite (range_perm m). apply length_map_to_list. Qed.

Lemma elem_of_fst_range m k : k ∈ (range m).*1 ↔ is_Some (m !! k).
Proof.
  rewrite list_elem_of_fmap. split.
  - intros [[k' a] [-> Hin]]. apply elem_of_range in Hin. by eexists.
  - intros [a Ha]. exists (k, a). split; [done|]. by apply elem_of_range.
Qed.

Lemma range_empty : range (∅ : gmap K A) = [].
Proof.
  apply Permutation_nil_r. rewrite (range_perm ∅). by rewrite map_to_list_empty.
Qed.

Lemma range_nil_inv m : range m = [] → m = ∅.
Proof.
  intros Hnil. apply map_to_list_empty_iff.
  apply Permutation_nil_r. by rewrite <- (range_perm m), Hnil.
Qed.

(** Building a map entry by entry, as the conversion loops do. *)
Lemma foldl_insert_notin {B} (f : A → B) (l : list (K * A)) (acc : gmap K B) k :
  k ∉ l.*1 →
  foldl (λ (acc : gmap K B) e, <[e.1 := f e.2]> acc) acc l !! k = acc !! k.
Proof.
  revert acc. induction l as [|[k' a] l IH]; intros acc Hk; [done|].
  simpl in *. apply not_elem_of_cons in Hk as [Hne Hk].
  rewrite IH by done. by rewrite lookup_insert_ne.
Qed.

Lemma foldl_insert_in {B} (f : A → B) (l : list (K * A)) (acc : gmap K B) k a :
  NoDup l.*1 → (k, a) ∈ l →
  foldl (λ (acc : gmap K B) e, <[e.1 := f e.2]> acc) acc l !! k = Some (f a).
Proof.
  revert acc. induction l as [|[k' a'] l IH]; intros acc Hnd Hin.
  - by apply elem_of_nil in Hin.
  - simpl in *. apply NoDup_cons in Hnd as [Hk' Hnd].
    apply elem_of_cons in Hin as [Heq|Hin].
    + injection Heq as -> ->. rewrite foldl_insert_notin by done.
      apply lookup_insert_eq.
    + by apply IH.
Qed.

Lemma foldl_insert_range {B} (f : A → B) m :
  foldl (λ (acc : gmap K B) e, <[e.1 := f e.2]> acc) ∅ (range m) = f <$> m.
Proof.
  apply map_eq. intros k. rewrite lookup_fmap.
  destruct (m !! k) as [a|] eqn:Hk; simpl.
  - apply foldl_insert_in; [apply NoDup_fst_range|by apply elem_of_range].
  - rewrite foldl_insert_notin; [done|].
    rewrite elem_of_fst_range, Hk. by intros [? ?].
Qed.

End RangeFacts.

(** ** The offset index *)

Section IndexFacts.
Context {order : RangeOrder}.

Lemma convertBlocks_fmap blocks : convertBlocks blocks = Offset <$> blocks.
Proof. apply (foldl_insert_range Offset). Qed.

Lemma convertOffsets_fmap offsets :
  convertOffsets offsets = convertBlocks <$> Blocks offsets.
Proof. apply (foldl_insert_range convertBlocks). Qed.

Lemma groupOffsets_fmap (offsets : gmap string OffsetFetchResponse) :
  groupOffsets offsets = convertOffsets <$> offsets.
Proof. apply (foldl_insert_range convertOffsets). Qed.

(** The committed offset of the index is the offset field of the block. *)
Lemma committedOffset_block (offsets : gmap string OffsetFetchResponse) group topic pID :
  committedOffset (groupOffsets offsets) group topic pID
  = Offset <$> (offsets !! group ≫= λ r, Blocks r !! topic ≫= λ blocks, blocks !! pID).
Proof.
  unfold committedOffset, topicsOf. rewrite groupOffsets_fmap, lookup_fmap.
  destruct (offsets !! group) as [r|]; simpl; [|done].
  rewrite convertOffsets_fmap, lookup_fmap.
  destruct (Blocks r !! topic) as [blocks|]; simpl; [|done].
  by rewrite convertBlocks_fmap, lookup_fmap.
Qed.

End IndexFacts.

(** ** The join of one topic *)

Section TopicFacts.
Context {order : RangeOrder}.
Implicit Types (pOffsets : partitionOffsets) (t : TopicLag).

Lemma partitionStep_joinEntry pOffsets t e :
  partitionStep pOffsets t e =
  match joinEntry pOffsets e with
  | None => t
  | Some pl =>
      {| Topic := Topic t;
         SummedLag := Int64.add (SummedLag t) (Lag pl);
         PartitionCount := PartitionCount t;
         PartitionsWithOffset := PartitionsWithOffset t + 1;
         PartitionLags := append (PartitionLags t) pl |}
  end.
Proof.
  destruct e as [pID watermark]. unfold partitionStep, joinEntry. simpl.
  by destruct (pOffsets !! pID).
Qed.

(** What the loop over the watermark entries [l] has done to [t]. *)
Lemma foldl_partitionStep pOffsets l t :
  foldl (partitionStep pOffsets) t l =
  match joinLags pOffsets l with
  | [] => t
  | lags =>
      {| Topic := Topic t;
         SummedLag := foldl Int64.add (SummedLag t) (Lag <$> lags);
         PartitionCount := PartitionCount t;
         PartitionsWithOffset := PartitionsWithOffset t + Z.of_nat (length lags);
         PartitionLags := SliceOf (elems (PartitionLags t) ++ lags) |}
  end.
Proof.
  revert t. induction l as [|e l IH]; intros t; [done|].
  simpl. rewrite IH, partitionStep_joinEntry. unfold joinLags. simpl.
  destruct (joinEntry pOffsets e) as [pl|]; simpl; [|done].
  destruct (omap (joinEntry pOffsets) l) as [|pl' lags]; simpl.
  - unfold append. f_equal; lia.
  - rewrite <- app_assoc. simpl. f_equal; lia.
Qed.

(** The topic lag in closed form. *)
Lemma topicLag_joinLags topic pOffsets partitionWaterMarks :
  topicLag topic pOffsets partitionWaterMarks =
  let lags := joinLags pOffsets (range partitionWaterMarks) in
  {| Topic := topic;
     SummedLag := Int64.sum (Lag <$> lags);
     PartitionCount := Z.of_nat (size partitionWaterMarks);
     PartitionsWithOffset := Z.of_nat (length lags);
     PartitionLags := SliceOf lags |}.
Proof.
  unfold topicLag. rewrite foldl_partitionStep. simpl.
  by destruct (joinLags pOffsets (range partitionWaterMarks)).
Qed.

Lemma length_joinLags pOffsets (l : list (Z * Z)) :
  (length (joinLags pOffsets l) ≤ length l)%nat.
Proof.
  induction l as [|e l IH]; simpl; [done|].
  unfold joinLags in *. simpl. destruct (joinEntry pOffsets e); simpl; lia.
Qed.

Lemma elem_of_joinLags pOffsets (l : list (Z * Z)) pl :
  pl ∈ joinLags pOffsets l ↔
  ∃ watermark groupOffset,
    (PartitionID pl, watermark) ∈ l ∧ pOffsets !! PartitionID pl = Some groupOffset
    ∧ Lag pl = clampLag (Int64.sub watermark groupOffset).
Proof.
  unfold joinLags. rewrite list_elem_of_omap. split.
  - intros [[pID watermark] [Hin Hj]]. unfold joinEntry in Hj. simpl in Hj.
    destruct (pOffsets !! pID) as [groupOffset|] eqn:Hp; simplify_eq/=.
    by exists watermark, groupOffset.
  - intros (watermark & groupOffset & Hin & Hp & Hlag).
    exists (PartitionID pl, watermark). split; [done|].
    unfold joinEntry. simpl. rewrite Hp. simpl. destruct pl; simpl in *. by subst.
Qed.

Lemma joinLags_Permutation pOffsets (l l' : list (Z * Z)) :
  l ≡ₚ l' → joinLags pOffsets l ≡ₚ joinLags pOffsets l'.
Proof. intros Hl. unfold joinLags. by rewrite Hl. Qed.

Lemma sum_Permutation (l l' : list Z) : l ≡ₚ l' → Int64.sum l = Int64.sum l'.
Proof.
  intros Hl. rewrite !sum_wrap. f_equal. unfold Int64.sumZ.
  induction Hl; simpl; lia.
Qed.

End TopicFacts.

(** ** The loop over the topics of a group and over the groups *)

Section GroupFacts.
Context {order : RangeOrder}.
Implicit Types (waterMarks : gmap string (gmap Z Z))
               (offsetsByGroup : gmap string (gmap string partitionOffsets)).

Lemma groupTopicLags_mapM waterMarks entries (l : list TopicLag) :
  groupTopicLags waterMarks entries (SliceOf l) =
  match mapM (entryLag waterMarks) entries with
  | Some ts => Ok (SliceOf (l ++ ts))
  | None => Err ErrNoWatermark
  end.
Proof.
  revert l. induction entries as [|[topic pOffsets] entries IH]; intros l; simpl.
  - by rewrite app_nil_r.
  - change (entryLag waterMarks (topic, pOffsets))
      with (topicLag topic pOffsets <$> waterMarks !! topic).
    destruct (waterMarks !! topic) as [pwm|]; simpl; [|done].
    unfold append. simpl. rewrite IH.
    fold (entryLag waterMarks).
    destruct (mapM (entryLag waterMarks) entries) as [ts|]; simpl; [|done].
    by rewrite <- app_assoc.
Qed.

Lemma groupTopicLags_Ok waterMarks (topics : gmap string partitionOffsets) topicLags :
  groupTopicLags waterMarks (range topics) make = Ok topicLags ↔
  ∃ ts, topicLags = SliceOf ts
        ∧ Forall2 (λ e t, entryLag waterMarks e = Some t) (range topics) ts.
Proof.
  unfold make. rewrite groupTopicLags_mapM. simpl.
  destruct (mapM _ _) as [ts|] eqn:Hm.
  - apply mapM_Some in Hm. split.
    + intros [= <-]. by exists ts.
    + intros (ts' & -> & Hts'). apply mapM_Some in Hts'.
      apply mapM_Some in Hm. congruence.
  - split; [done|]. intros (ts & _ & Hts). apply mapM_Some in Hts. congruence.
Qed.

Lemma groupTopicLags_Err waterMarks (topics : gmap string partitionOffsets) e :
  groupTopicLags waterMarks (range topics) make = Err e ↔
  e = ErrNoWatermark ∧ ∃ topic, is_Some (topics !! topic) ∧ waterMarks !! topic = None.
Proof.
  unfold make. rewrite groupTopicLags_mapM. simpl.
  destruct (mapM _ _) as [ts|] eqn:Hm.
  - split; [done|]. intros [_ (topic & [pOffsets Ht] & Hw)].
    apply mapM_Some in Hm. apply elem_of_range in Ht.
    apply list_elem_of_lookup_1 in Ht as [i Hi].
    destruct (Forall2_lookup_l _ _ _ _ _ Hm Hi) as (t & _ & Ht').
    unfold entryLag in Ht'. simpl in Ht'. by rewrite Hw in Ht'.
  - split; [|by intros [-> _]]. intros [= <-]. split; [done|].
    destruct (decide (Forall (λ e, is_Some (entryLag waterMarks e)) (range topics)))
      as [Hall|Hex].
    + apply mapM_is_Some_2 in Hall. rewrite Hm in Hall. by destruct Hall.
    + apply not_Forall_Exists in Hex; [|intros ?; apply _].
      apply Exists_exists in Hex as ([topic pOffsets] & Hin & Hnone).
      exists topic. apply elem_of_range in Hin. split; [by eexists|].
      unfold entryLag in Hnone. simpl in Hnone.
      destruct (waterMarks !! topic); [|done]. destruct Hnone. by eexists.
Qed.

Lemma groupTopicLags_total waterMarks entries topicLags :
  (∃ ts, groupTopicLags waterMarks entries topicLags = Ok ts)
  ∨ groupTopicLags waterMarks entries topicLags = Err ErrNoWatermark.
Proof.
  revert topicLags. induction entries as [|[topic pOffsets] entries IH];
    intros topicLags; simpl; [by left; eexists|].
  destruct (waterMarks !! topic); [apply IH|by right].
Qed.

Lemma computeLags_Ok offsetsByGroup waterMarks groups res r :
  computeLags offsetsByGroup waterMarks groups res = Ok r →
  ∀ group,
    (group ∈ groups →
     ∃ topicLags,
       groupTopicLags waterMarks (range (topicsOf offsetsByGroup group)) make = Ok topicLags
       ∧ r !! group = Some {| GroupID := group; TopicLags := topicLags |})
    ∧ (group ∉ groups → r !! group = res !! group).
Proof.
  revert res. induction groups as [|g groups IH]; intros res Hr group; simpl in Hr.
  - injection Hr as <-. split; [by intros ?%elem_of_nil|done].
  - fold (topicsOf offsetsByGroup g) in Hr.
    destruct (groupTopicLags waterMarks (range (topicsOf offsetsByGroup g)) make)
      as [topicLags|] eqn:Hg; [|done].
    destruct (IH _ Hr group) as [Hin Hout]. split.
    + intros Hgroup. destruct (decide (group ∈ groups)) as [?|Hnot]; [by apply Hin|].
      apply elem_of_cons in Hgroup as [->|?]; [|done].
      exists topicLags. split; [done|]. rewrite Hout by done. apply lookup_insert_eq.
    + intros Hgroup. apply not_elem_of_cons in Hgroup as [Hne Hnot].
      rewrite Hout by done. by apply lookup_insert_ne.
Qed.

Lemma computeLags_Err offsetsByGroup waterMarks groups res e :
  computeLags offsetsByGroup waterMarks groups res = Err e ↔
  e = ErrNoWatermark ∧ missingWatermark offsetsByGroup waterMarks groups.
Proof.
  unfold missingWatermark, hasOffsetsFor.
  revert res. induction groups as [|g groups IH]; intros res; simpl.
  - split; [done|]. by intros [_ (? & ? & ?%elem_of_nil & _)].
  - fold (topicsOf offsetsByGroup g).
    destruct (groupTopicLags waterMarks (range (topicsOf offsetsByGroup g)) make)
      as [topicLags|e'] eqn:Hg.
    + rewrite IH. split.
      * intros [-> (group & topic & Hin & Hrest)]. split; [done|].
        exists group, topic. split; [by apply elem_of_cons; right|done].
      * intros [-> (group & topic & Hin & Hsome & Hnone)]. split; [done|].
        exists group, topic. split; [|done].
        apply elem_of_cons in Hin as [->|?]; [|done].
        assert (groupTopicLags waterMarks (range (topicsOf offsetsByGroup g)) make
                = Err ErrNoWatermark) as Herr
          by (apply groupTopicLags_Err; eauto).
        congruence.
    + apply groupTopicLags_Err in Hg as [-> (topic & Hsome & Hnone)]. split.
      * intros [= <-]. split; [done|]. exists g, topic. by rewrite elem_of_cons; auto.
      * by intros [-> _].
Qed.

Lemma computeLags_total offsetsByGroup waterMarks groups res :
  (∃ r, computeLags offsetsByGroup waterMarks groups res = Ok r)
  ∨ computeLags offsetsByGroup waterMarks groups res = Err ErrNoWatermark.
Proof.
  destruct (computeLags offsetsByGroup waterMarks groups res) as [r|e] eqn:Hc.
  - left. by eexists.
  - right. by apply computeLags_Err in Hc as [-> _].
Qed.

End GroupFacts.

(** ** The stages of the computation *)

Ltac unfold_M := unfold bind, ret, callOr, callThrough, liftResult in *.

Section StageFacts.
Context {order : RangeOrder} {World : Type} (kafkaSvc : KafkaService World).
Implicit Types (w : World) (topics : list string) (acc : gmap string (list Z)).

Lemma listPartitions_app topics1 topics2 acc w :
  listPartitions kafkaSvc (topics1 ++ topics2) acc w =
  bind (listPartitions kafkaSvc topics1 acc) (listPartitions kafkaSvc topics2) w.
Proof.
  revert acc w. induction topics1 as [|topic topics1 IH]; intros acc w; [done|].
  simpl. unfold_M. destruct (Partitions kafkaSvc topic w) as [[ps|e] w1]; [|done].
  apply IH.
Qed.

Lemma listPartitions_Err topics acc w e w' :
  listPartitions kafkaSvc topics acc w = (Err e, w') ↔
  e = ErrPartitionList
  ∧ ∃ listed topic rest topicPartitions w2 e',
      topics = listed ++ topic :: rest
      ∧ listPartitions kafkaSvc listed acc w = (Ok topicPartitions, w2)
      ∧ Partitions kafkaSvc topic w2 = (Err e', w').
Proof.
  split.
  - revert acc w. induction topics as [|topic topics IH]; intros acc w Hl; [done|].
    simpl in Hl. unfold_M.
    destruct (Partitions kafkaSvc topic w) as [[ps|e'] w1] eqn:Hp.
    + destruct (IH _ _ Hl) as [-> (listed & t & rest & tp & w2 & e' & -> & Hok & Herr)].
      split; [done|]. exists (topic :: listed), t, rest, tp, w2, e'.
      split; [done|]. split; [|done]. simpl. unfold_M. by rewrite Hp.
    + injection Hl as <- <-. split; [done|].
      by exists [], topic, topics, acc, w, e'.
  - intros [-> (listed & topic & rest & tp & w2 & e' & -> & Hok & Herr)].
    rewrite listPartitions_app. unfold bind at 1. rewrite Hok.
    simpl. unfold_M. by rewrite Herr.
Qed.

(** For a client whose partition listing does not depend on the state, one
    topic of the list that cannot be listed makes the loop fail. *)
Lemma listPartitions_any_fails (listing : string → result clientError (list Z))
    topics acc w topic e :
  (∀ topic w, Partitions kafkaSvc topic w = (listing topic, w)) →
  topic ∈ topics → listing topic = Err e →
  listPartitions kafkaSvc topics acc w = (Err ErrPartitionList, w).
Proof.
  intros Hpure Hin Herr. revert acc.
  induction topics as [|t topics IH]; intros acc; [by apply elem_of_nil in Hin|].
  simpl. unfold_M. rewrite Hpure.
  destruct (listing t) as [ps|e'] eqn:Ht; [|done].
  apply IH. apply elem_of_cons in Hin as [->|Hin]; [congruence|done].
Qed.

(** A run ends in a report exactly when the three fetches go through and
    every topic a requested group has offsets for has watermarks. *)
Lemma getConsumerGroupLags_Ok groups w res w' :
  getConsumerGroupLags kafkaSvc groups w = (Ok res, w') ↔
  ∃ offsets waterMarks,
    fetched kafkaSvc groups w offsets waterMarks w'
    ∧ computeLags (groupOffsets offsets) waterMarks groups ∅ = Ok res.
Proof.
  unfold getConsumerGroupLags, fetched. unfold_M. split.
  - destruct (ListConsumerGroupOffsetsBulk kafkaSvc groups w) as [[offsets|?] w1]; [|done].
    destruct (listPartitions _ _ _ w1) as [[tp|?] w2] eqn:Hl; [|done].
    destruct (HighWaterMarks kafkaSvc tp w2) as [[waterMarks|?] w3] eqn:Hh; [|done].
    intros [= Hc <-]. exists offsets, waterMarks. split; [|done].
    by exists w1, tp, w2.
  - intros (offsets & waterMarks & (w1 & tp & w2 & -> & -> & ->) & ->). done.
Qed.

Lemma getConsumerGroupLags_Err groups w e w' :
  getConsumerGroupLags kafkaSvc groups w = (Err e, w') ↔
  stageFailure kafkaSvc groups w e w'.
Proof.
  split.
  - unfold getConsumerGroupLags. unfold bind at 1. unfold callOr at 1.
    destruct (ListConsumerGroupOffsetsBulk kafkaSvc groups w) as [[offsets|e0] w1] eqn:Ho.
    2: { intros [= <- <-]. by eapply OffsetFetchFails. }
    unfold bind at 1.
    destruct (listPartitions _ _ _ w1) as [[tp|e1] w2] eqn:Hl.
    2: { intros [= <- <-].
         apply listPartitions_Err in Hl
           as [-> (listed & topic & rest & tp & w2' & e' & Htopics & Hok & Herr)].
         by eapply PartitionListFails. }
    unfold bind, callThrough, liftResult.
    destruct (HighWaterMarks kafkaSvc tp w2) as [[waterMarks|e2] w3] eqn:Hh.
    2: { intros [= <- <-]. by eapply WatermarkFetchFails. }
    intros [= Hc <-]. apply computeLags_Err in Hc as [-> Hmiss].
    eapply WatermarkMissing; [|done]. by exists w1, tp, w2.
  - unfold getConsumerGroupLags.
    intros [e0 w1 Ho
           |offsets w1 listed topic rest tp w2 e0 w3 Ho Htopics Hok Herr
           |offsets w1 tp w2 e0 w3 Ho Hl Hh
           |offsets waterMarks w3 (w1 & tp & w2 & Ho & Hl & Hh) Hmiss].
    + unfold bind, callOr. by rewrite Ho.
    + unfold bind at 1. unfold callOr at 1. rewrite Ho. unfold bind at 1.
      assert (listPartitions kafkaSvc (consumedTopics (groupOffsets offsets)) ∅ w1
              = (Err ErrPartitionList, w3)) as ->; [|done].
      apply listPartitions_Err. split; [done|].
      by exists listed, topic, rest, tp, w2, e0.
    + unfold bind at 1. unfold callOr at 1. rewrite Ho. unfold bind at 1. rewrite Hl.
      unfold bind, callThrough. by rewrite Hh.
    + unfold bind at 1. unfold callOr at 1. rewrite Ho. unfold bind at 1. rewrite Hl.
      unfold bind, callThrough, liftResult. rewrite Hh. f_equal.
      by apply (computeLags_Err _ _ _ ∅).
Qed.

(** The fetches of a run are determined by the start. *)
Lemma fetched_agree groups w offsets waterMarks w' offsets' waterMarks' w'' :
  fetched kafkaSvc groups w offsets waterMarks w' →
  fetched kafkaSvc groups w offsets' waterMarks' w'' →
  offsets = offsets' ∧ waterMarks = waterMarks' ∧ w' = w''.
Proof.
  intros (w1 & tp & w2 & Ho & Hl & Hh) (w1' & tp' & w2' & Ho' & Hl' & Hh').
  rewrite Ho in Ho'. injection Ho' as <- <-.
  rewrite Hl in Hl'. injection Hl' as <- <-.
  rewrite Hh in Hh'. by injection Hh' as <- <-.
Qed.

End StageFacts.

(** ** Reading the report *)

Section ReportFacts.
Context {order : RangeOrder}.
Implicit Types (waterMarks : gmap string (gmap Z Z)) (pOffsets : partitionOffsets)
               (offsetsByGroup : gmap string (gmap string partitionOffsets)).

Lemma Topic_entryLag waterMarks e t : entryLag waterMarks e = Some t → Topic t = e.1.
Proof.
  unfold entryLag. destruct (waterMarks !! e.1) as [pwm|]; [|done].
  intros [= <-]. by rewrite topicLag_joinLags.
Qed.

Lemma entryLag_Some waterMarks e t :
  entryLag waterMarks e = Some t ↔
  ∃ pwm, waterMarks !! e.1 = Some pwm ∧ t = topicLag e.1 e.2 pwm.
Proof.
  unfold entryLag. destruct (waterMarks !! e.1) as [pwm|]; simpl.
  - split; [intros [= <-]; by exists pwm|]. by intros (? & [= <-] & ->).
  - split; [done|]. by intros (? & ? & _).
Qed.

Lemma scanTopicLag_in waterMarks entries ts topic pOffsets :
  Forall2 (λ e t, entryLag waterMarks e = Some t) entries ts →
  NoDup entries.*1 → (topic, pOffsets) ∈ entries →
  scanTopicLag topic ts = entryLag waterMarks (topic, pOffsets).
Proof.
  induction 1 as [|e t entries ts He _ IH]; intros Hnd Hin.
  - by apply elem_of_nil in Hin.
  - simpl in *. apply NoDup_cons in Hnd as [Hfresh Hnd].
    rewrite (Topic_entryLag _ _ _ He). case_decide as Htopic.
    + apply elem_of_cons in Hin as [<-|Hin]; [done|].
      destruct Hfresh. rewrite Htopic.
      apply list_elem_of_fmap. by exists (topic, pOffsets).
    + apply elem_of_cons in Hin as [<-|Hin]; [by destruct Htopic|]. by apply IH.
Qed.

Lemma scanTopicLag_notin waterMarks entries ts topic :
  Forall2 (λ e t, entryLag waterMarks e = Some t) entries ts →
  topic ∉ entries.*1 → scanTopicLag topic ts = None.
Proof.
  induction 1 as [|e t entries ts He _ IH]; intros Hnot; [done|].
  simpl in *. apply not_elem_of_cons in Hnot as [Hne Hnot].
  rewrite (Topic_entryLag _ _ _ He). case_decide; [congruence|]. by apply IH.
Qed.

Lemma find_joinLags_notin pOffsets (l : list (Z * Z)) pID :
  pID ∉ l.*1 ∨ pOffsets !! pID = None →
  list_find (λ pl, PartitionID pl = pID) (joinLags pOffsets l) = None.
Proof.
  intros Hno. apply list_find_None, Forall_forall. intros pl Hpl Hid.
  apply elem_of_joinLags in Hpl as (watermark & groupOffset & Hin & Hp & _).
  rewrite Hid in *. destruct Hno as [Hno|Hno]; [|congruence].
  apply Hno, list_elem_of_fmap. by exists (pID, watermark).
Qed.

Lemma find_joinLags_in pOffsets (l : list (Z * Z)) pID watermark groupOffset :
  NoDup l.*1 → (pID, watermark) ∈ l → pOffsets !! pID = Some groupOffset →
  snd <$> list_find (λ pl, PartitionID pl = pID) (joinLags pOffsets l)
  = Some {| PartitionID := pID; Lag := clampLag (Int64.sub watermark groupOffset) |}.
Proof.
  intros Hnd Hin Hp. induction l as [|[pID' watermark'] l IH].
  - by apply elem_of_nil in Hin.
  - simpl in Hnd. apply NoDup_cons in Hnd as [Hfresh Hnd].
    unfold joinLags. simpl. unfold joinEntry at 1. simpl.
    apply elem_of_cons in Hin as [[= <- <-]|Hin].
    + rewrite Hp. simpl. by rewrite decide_True.
    + assert (pID' ≠ pID) as Hne.
      { intros ->. apply Hfresh, list_elem_of_fmap. by exists (pID, watermark). }
      destruct (pOffsets !! pID') as [o'|]; simpl; [|by apply IH].
      rewrite decide_False by done.
      specialize (IH Hnd Hin). unfold joinLags in IH.
      destruct (list_find _ _) as [[i pl]|]; simpl in *; [done|done].
Qed.

Lemma partitionLagOf_topicLag topic pOffsets (pwm : gmap Z Z) pID :
  partitionLagOf (topicLag topic pOffsets pwm) pID =
  pwm !! pID ≫= λ watermark, pOffsets !! pID ≫= λ groupOffset,
    Some {| PartitionID := pID; Lag := clampLag (Int64.sub watermark groupOffset) |}.
Proof.
  unfold partitionLagOf. rewrite topicLag_joinLags. simpl.
  destruct (pwm !! pID) as [watermark|] eqn:Hw; simpl.
  - destruct (pOffsets !! pID) as [groupOffset|] eqn:Hp; simpl.
    + apply find_joinLags_in; [apply NoDup_fst_range|by apply elem_of_range|done].
    + rewrite find_joinLags_notin; [done|by right].
  - rewrite find_joinLags_notin; [done|]. left.
    rewrite elem_of_fst_range, Hw. by intros [? ?].
Qed.

Lemma joinLags_cons pOffsets e (l : list (Z * Z)) :
  joinLags pOffsets (e :: l) =
  match joinEntry pOffsets e with
  | Some pl => pl :: joinLags pOffsets l
  | None => joinLags pOffsets l
  end.
Proof. unfold joinLags. simpl. by destruct (joinEntry pOffsets e). Qed.

(** The number of joined partitions. *)
Lemma length_joinLags_filter pOffsets (l : list (Z * Z)) :
  length (joinLags pOffsets l) = length (filter (λ e, is_Some (pOffsets !! e.1)) l).
Proof.
  induction l as [|e l IH]; [done|].
  rewrite joinLags_cons, filter_cons. unfold joinEntry.
  case_decide as Hd.
  - destruct Hd as [o Ho]. simpl in Ho. rewrite Ho. simpl. by rewrite IH.
  - destruct (pOffsets !! e.1) as [o|] eqn:Ho; [|done].
    destruct Hd. simpl. by eexists.
Qed.

Lemma length_joinLags_withOffset pOffsets (pwm : gmap Z Z) :
  length (joinLags pOffsets (range pwm)) = size (withOffset pOffsets pwm).
Proof.
  rewrite length_joinLags_filter. unfold withOffset.
  rewrite map_filter_alt, map_size_list_to_map.
  - by rewrite (range_perm pwm).
  - eapply NoDup_fmap_fst.
    + intros k a b Ha%list_elem_of_filter Hb%list_elem_of_filter.
      destruct Ha as [_ Ha], Hb as [_ Hb]. exact (map_to_list_unique _ _ _ _ Ha Hb).
    + apply NoDup_filter, NoDup_map_to_list.
Qed.

End ReportFacts.

(** ** The report of a successful run *)

Section RunFacts.
Context {order : RangeOrder} {World : Type} (kafkaSvc : KafkaService World).
Context (groups : list string) (w w' : World).
Context (offsets : gmap string OffsetFetchResponse) (waterMarks : gmap string (gmap Z Z)).
Context (res : gmap string ConsumerGroupLag).
Hypothesis Hfetched : fetched kafkaSvc groups w offsets waterMarks w'.
Hypothesis Hrun : getConsumerGroupLags kafkaSvc groups w = (Ok res, w').

Lemma run_computeLags :
  computeLags (groupOffsets offsets) waterMarks groups ∅ = Ok res.
Proof.
  apply getConsumerGroupLags_Ok in Hrun as (offsets' & waterMarks' & Hf & Hc).
  by destruct (fetched_agree _ _ _ _ _ _ _ _ _ Hfetched Hf) as (-> & -> & _).
Qed.

Lemma run_requested group :
  group ∈ groups →
  ∃ ts, res !! group = Some {| GroupID := group; TopicLags := SliceOf ts |}
        ∧ Forall2 (λ e t, entryLag waterMarks e = Some t)
                  (range (topicsOf (groupOffsets offsets) group)) ts.
Proof.
  intros Hin. destruct (computeLags_Ok _ _ _ _ _ run_computeLags group) as [Hreq _].
  destruct (Hreq Hin) as (topicLags & Hg & Hres).
  apply groupTopicLags_Ok in Hg as (ts & -> & Hts). by exists ts.
Qed.

Lemma run_not_requested group : group ∉ groups → res !! group = None.
Proof.
  intros Hout. destruct (computeLags_Ok _ _ _ _ _ run_computeLags group) as [_ Hnot].
  by rewrite Hnot.
Qed.

Lemma run_lookup group cgl :
  res !! group = Some cgl →
  group ∈ groups
  ∧ ∃ ts, cgl = {| GroupID := group; TopicLags := SliceOf ts |}
          ∧ Forall2 (λ e t, entryLag waterMarks e = Some t)
                    (range (topicsOf (groupOffsets offsets) group)) ts.
Proof.
  intros Hres. destruct (decide (group ∈ groups)) as [Hin|Hout].
  - split; [done|]. destruct (run_requested _ Hin) as (ts & Hts & Hall).
    exists ts. split; [congruence|done].
  - rewrite run_not_requested in Hres; done.
Qed.

Lemma run_topicLag group cgl t :
  res !! group = Some cgl → t ∈ elems (TopicLags cgl) →
  ∃ pOffsets pwm,
    topicsOf (groupOffsets offsets) group !! Topic t = Some pOffsets
    ∧ waterMarks !! Topic t = Some pwm
    ∧ t = topicLag (Topic t) pOffsets pwm.
Proof.
  intros Hres Ht. apply run_lookup in Hres as (_ & ts & -> & Hall). simpl in Ht.
  apply list_elem_of_lookup_1 in Ht as [i Hi].
  destruct (Forall2_lookup_r _ _ _ _ _ Hall Hi) as ([topic pOffsets] & He & Hlag).
  pose proof (Topic_entryLag _ _ _ Hlag) as Htopic. simpl in Htopic.
  apply entryLag_Some in Hlag as (pwm & Hw & ->). simpl in *.
  exists pOffsets, pwm. rewrite Htopic.
  split; [|done]. apply elem_of_range. by eapply list_elem_of_lookup_2.
Qed.

Lemma run_topicLagOf group topic :
  group ∈ groups →
  topicLagOf res group topic =
  topicsOf (groupOffsets offsets) group !! topic ≫= λ pOffsets,
    topicLag topic pOffsets <$> waterMarks !! topic.
Proof.
  intros Hin. destruct (run_requested _ Hin) as (ts & Hres & Hall).
  unfold topicLagOf, GetTopicLag. rewrite Hres. simpl.
  destruct (topicsOf (groupOffsets offsets) group !! topic) as [pOffsets|] eqn:Ht.
  - simpl. apply elem_of_range in Ht.
    by rewrite (scanTopicLag_in _ _ _ _ _ Hall (NoDup_fst_range _) Ht).
  - simpl. apply (scanTopicLag_notin _ _ _ _ Hall).
    rewrite elem_of_fst_range, Ht. by intros [? ?].
Qed.

(** A topic a requested group has offsets for has watermarks. *)
Lemma run_watermarks group topic :
  group ∈ groups → hasOffsetsFor (groupOffsets offsets) group topic →
  is_Some (waterMarks !! topic).
Proof.
  intros Hin Hhas. destruct (waterMarks !! topic) as [pwm|] eqn:Hw; [by eexists|].
  assert (computeLags (groupOffsets offsets) waterMarks groups ∅ = Err ErrNoWatermark)
    as Herr.
  { apply computeLags_Err. split; [done|]. by exists group, topic. }
  rewrite run_computeLags in Herr. done.
Qed.

Lemma run_reportedLag group topic pID :
  group ∈ groups →
  reportedLag res group topic pID =
  waterMarks !! topic ≫= λ pwm, pwm !! pID ≫= λ watermark,
    committedOffset (groupOffsets offsets) group topic pID ≫= λ groupOffset,
      Some (clampLag (Int64.sub watermark groupOffset)).
Proof.
  intros Hin. unfold reportedLag, committedOffset. rewrite run_topicLagOf by done.
  destruct (topicsOf (groupOffsets offsets) group !! topic) as [pOffsets|] eqn:Ht; simpl.
  - destruct (run_watermarks group topic Hin) as [pwm Hw].
    { unfold hasOffsetsFor. rewrite Ht. by eexists. }
    rewrite Hw. simpl. rewrite partitionLagOf_topicLag.
    destruct (pwm !! pID); simpl; [|done]. by destruct (pOffsets !! pID).
  - destruct (waterMarks !! topic) as [pwm|]; simpl; [|done].
    by destruct (pwm !! pID).
Qed.

End RunFacts.

Section Success.
Context {order : RangeOrder} {World : Type} (kafkaSvc : KafkaService World).

Lemma run_success groups (w w' : World) offsets waterMarks :
  fetched kafkaSvc groups w offsets waterMarks w' →
  ¬ missingWatermark (groupOffsets offsets) waterMarks groups →
  ∃ res, getConsumerGroupLags kafkaSvc groups w = (Ok res, w').
Proof.
  intros Hf Hno.
  destruct (computeLags_total (groupOffsets offsets) waterMarks groups ∅) as [[res Hc]|Hc].
  - exists res. apply getConsumerGroupLags_Ok. by exists offsets, waterMarks.
  - apply computeLags_Err in Hc as [_ Hmiss]. done.
Qed.

Lemma run_fetched groups (w w' : World) res :
  getConsumerGroupLags kafkaSvc groups w = (Ok res, w') →
  ∃ offsets waterMarks, fetched kafkaSvc groups w offsets waterMarks w'.
Proof.
  intros (offsets & waterMarks & Hf & _)%getConsumerGroupLags_Ok. eauto.
Qed.

End Success.

(** * The claims of the specification *)

(** Discharging the facts about a run on a snapshot. *)
Ltac run_snapshot := vm_compute; reflexivity.
Ltac fetched_snapshot :=
  exists tt; eexists; exists tt; split; [run_snapshot|split; run_snapshot].

Section Invariants.
Context {order : RangeOrder} {World : Type} (kafkaSvc : KafkaService World).
Implicit Types (w : World) (res : gmap string ConsumerGroupLag).

(** C4. For every TopicLag of a report, summedLag is the sum of the lag
    fields of its partitionLags: the sum the [int64] accumulator holds, which
    is the sum of the integers reduced to 64 bits, and the sum of the
    integers itself whenever that one does not exceed the largest [int64]. *)
Theorem summedLag_is_sum groups w w' res group cgl t :
  getConsumerGroupLags kafkaSvc groups w = (Ok res, w') →
  res !! group = Some cgl → t ∈ elems (TopicLags cgl) →
  let lags := Lag <$> elems (PartitionLags t) in
  SummedLag t = Int64.sum lags
  ∧ SummedLag t = Int64.wrap (Int64.sumZ lags)
  ∧ (Int64.sumZ lags ≤ Int64.max_int → SummedLag t = Int64.sumZ lags).
Proof.
  intros Hrun Hres Ht.
  destruct (run_fetched _ _ _ _ _ Hrun) as (offsets & waterMarks & Hf).
  destruct (run_topicLag _ _ _ _ _ _ _ Hf Hrun _ _ _ Hres Ht)
    as (pOffsets & pwm & _ & _ & ->).
  rewrite topicLag_joinLags. simpl.
  set (lags := joinLags pOffsets (range pwm)).
  split; [done|]. split; [apply sum_wrap|].
  intros Hmax. apply sum_exact. split; [|done].
  transitivity 0; [done|].
  apply sumZ_nonneg, Forall_fmap, Forall_forall.
  intros pl (? & ? & _ & _ & Hlag)%elem_of_joinLags.
  simpl. rewrite Hlag. apply clampLag_nonneg.
Qed.

(** C5. Every PartitionLag of a report has a lag that is not negative,
    whatever the offsets and the watermarks are. *)
Theorem lag_nonneg groups w w' res group cgl t pl :
  getConsumerGroupLags kafkaSvc groups w = (Ok res, w') →
  res !! group = Some cgl → t ∈ elems (TopicLags cgl) →
  pl ∈ elems (PartitionLags t) →
  0 ≤ Lag pl.
Proof.
  intros Hrun Hres Ht Hpl.
  destruct (run_fetched _ _ _ _ _ Hrun) as (offsets & waterMarks & Hf).
  destruct (run_topicLag _ _ _ _ _ _ _ Hf Hrun _ _ _ Hres Ht)
    as (pOffsets & pwm & _ & _ & Heq).
  rewrite Heq, topicLag_joinLags in Hpl. simpl in Hpl.
  apply elem_of_joinLags in Hpl as (watermark & groupOffset & _ & _ & ->).
  apply clampLag_nonneg.
Qed.

(** C6. For every TopicLag of a report, partitionsWithOffset is at most
    partitionCount, and partitionCount is the number of partitions the
    watermark index has for the topic. *)
Theorem partitionsWithOffset_le_partitionCount
    groups w w' offsets waterMarks res group cgl t :
  fetched kafkaSvc groups w offsets waterMarks w' →
  getConsumerGroupLags kafkaSvc groups w = (Ok res, w') →
  res !! group = Some cgl → t ∈ elems (TopicLags cgl) →
  PartitionsWithOffset t ≤ PartitionCount t
  ∧ ∃ pwm, waterMarks !! Topic t = Some pwm ∧ PartitionCount t = Z.of_nat (size pwm).
Proof.
  intros Hf Hrun Hres Ht.
  destruct (run_topicLag _ _ _ _ _ _ _ Hf Hrun _ _ _ Hres Ht)
    as (pOffsets & pwm & _ & Hw & Heq).
  assert (PartitionsWithOffset t = Z.of_nat (length (joinLags pOffsets (range pwm))))
    as -> by (by rewrite Heq, topicLag_joinLags).
  assert (PartitionCount t = Z.of_nat (size pwm))
    as Hcount by (by rewrite Heq, topicLag_joinLags).
  split; [|by exists pwm]. rewrite Hcount.
  pose proof (length_joinLags pOffsets (range pwm)) as Hle.
  rewrite length_range in Hle. lia.
Qed.

(** C7, amended. A report has an entry for every requested group, with the
    group's id and a topicLags slice that is not nil.  The slice is empty for
    a group whose offset map has no topic (the group is missing from the
    fetch result, or its response names no topic), and only for such a
    group: a topic of the offset map gives a TopicLag even if it has no
    committed offset on any partition. *)
Theorem requested_group_present groups w w' offsets waterMarks res group :
  fetched kafkaSvc groups w offsets waterMarks w' →
  getConsumerGroupLags kafkaSvc groups w = (Ok res, w') →
  group ∈ groups →
  ∃ cgl, res !! group = Some cgl
         ∧ GroupID cgl = group
         ∧ is_nil (TopicLags cgl) = false
         ∧ ((∀ topic, ¬ hasOffsetsFor (groupOffsets offsets) group topic) →
            cgl = {| GroupID := group; TopicLags := make |})
         ∧ (elems (TopicLags cgl) = [] →
            ∀ topic, ¬ hasOffsetsFor (groupOffsets offsets) group topic).
Proof.
  intros Hf Hrun Hin.
  destruct (run_requested _ _ _ _ _ _ _ Hf Hrun _ Hin) as (ts & Hres & Hall).
  eexists. split; [done|]. simpl. do 2 (split; [done|]). split.
  - intros Hnone.
    assert (topicsOf (groupOffsets offsets) group = ∅) as Hempty.
    { apply map_eq. intros topic. rewrite lookup_empty.
      apply eq_None_not_Some, Hnone. }
    rewrite Hempty, range_empty in Hall. by apply Forall2_nil_inv_l in Hall as ->.
  - intros ->. apply Forall2_nil_inv_r in Hall. apply range_nil_inv in Hall.
    intros topic. unfold hasOffsetsFor. rewrite Hall, lookup_empty. by intros [? ?].
Qed.

End Invariants.

Lemma summedLag_is_sum_witness :
  SummedLag scenarioTopicLag = Int64.sum [0; 20].
Proof.
  refine (proj1 (summedLag_is_sum (order := canonicalOrder) (snapshotService scenario)
                   ["g1"; "g2"]%string tt tt scenarioReport "g1"%string
                   scenarioGroupLag scenarioTopicLag _ _ _)).
  - vm_compute; reflexivity.
  - vm_compute; reflexivity.
  - simpl. constructor.
Defined.

Lemma lag_nonneg_witness : 0 ≤ 20.
Proof.
  refine (lag_nonneg (order := canonicalOrder) (snapshotService scenario)
            ["g1"; "g2"]%string tt tt scenarioReport "g1"%string
            scenarioGroupLag scenarioTopicLag {| PartitionID := 0; Lag := 20 |} _ _ _ _).
  - vm_compute; reflexivity.
  - vm_compute; reflexivity.
  - simpl. constructor.
  - simpl. constructor. constructor.
Defined.

Lemma partitionsWithOffset_le_partitionCount_witness : 2 ≤ 3.
Proof.
  refine (proj1 (partitionsWithOffset_le_partitionCount (order := canonicalOrder)
                   (snapshotService scenario) ["g1"; "g2"]%string tt tt
                   scenarioOffsets scenarioWaterMarks scenarioReport "g1"%string
                   scenarioGroupLag scenarioTopicLag _ _ _ _)).
  - fetched_snapshot.
  - vm_compute; reflexivity.
  - vm_compute; reflexivity.
  - simpl. constructor.
Defined.

Lemma requested_group_present_witness :
  ∃ cgl, scenarioReport !! "g2"%string = Some cgl
         ∧ GroupID cgl = "g2"%string
         ∧ is_nil (TopicLags cgl) = false
         ∧ cgl = {| GroupID := "g2"; TopicLags := make |}.
Proof.
  destruct (requested_group_present (order := canonicalOrder) (snapshotService scenario)
              ["g1"; "g2"]%string tt tt scenarioOffsets scenarioWaterMarks
              scenarioReport "g2"%string) as (cgl & Hres & Hid & Hnil & Hempty & _).
  - fetched_snapshot.
  - vm_compute; reflexivity.
  - constructor. constructor.
  - exists cgl. repeat split; try assumption. apply Hempty.
    intros topic [pOffsets Hp]. vm_compute in Hp. discriminate Hp.
Defined.

Section Scenario.
Context {order : RangeOrder} {World : Type} (kafkaSvc : KafkaService World).

Local Abbreviation pOffsets := ({[ 0 := 100; 1 := 50 ]} : gmap Z Z) (only parsing).
Local Abbreviation pwm := ({[ 0 := 120; 1 := 50; 2 := 30 ]} : gmap Z Z) (only parsing).

Lemma range_singleton `{Countable K} {A} (k : K) (a : A) :
  range ({[k := a]} : gmap K A) = [(k, a)].
Proof.
  apply Permutation_singleton_r.
  by rewrite (range_perm _), map_to_list_singleton.
Qed.

(** C1. Group g1 has committed 100 and 50 on partitions 0 and 1 of topicA,
    whose watermarks are 120, 50 and 30 on partitions 0, 1 and 2.  The run
    returns a report in which g1 has exactly one TopicLag: topic topicA,
    partitionCount 3, partitionsWithOffset 2, summedLag 20, and
    partitionLags made of (0, 20) and (1, 0) in some order; partition 2 is
    left out. *)
Theorem scenario_topicA groups (w w' : World) offsets waterMarks :
  fetched kafkaSvc groups w offsets waterMarks w' →
  ¬ missingWatermark (groupOffsets offsets) waterMarks groups →
  "g1"%string ∈ groups →
  topicsOf (groupOffsets offsets) "g1"
    = {[ "topicA"%string := {[ 0 := 100; 1 := 50 ]} ]} →
  waterMarks !! "topicA"%string = Some {[ 0 := 120; 1 := 50; 2 := 30 ]} →
  ∃ res lags,
    getConsumerGroupLags kafkaSvc groups w = (Ok res, w')
    ∧ res !! "g1"%string
      = Some {| GroupID := "g1";
                TopicLags :=
                  SliceOf [ {| Topic := "topicA";
                               SummedLag := 20;
                               PartitionCount := 3;
                               PartitionsWithOffset := 2;
                               PartitionLags := SliceOf lags |} ] |}
    ∧ lags ≡ₚ [ {| PartitionID := 0; Lag := 20 |}; {| PartitionID := 1; Lag := 0 |} ].
Proof.
  intros Hf Hno Hin Hoff Hw.
  destruct (run_success _ _ _ _ _ _ Hf Hno) as [res Hrun].
  destruct (run_requested _ _ _ _ _ _ _ Hf Hrun _ Hin) as (ts & Hres & Hall).
  rewrite Hoff, range_singleton in Hall.
  apply Forall2_cons_inv_l in Hall as (t & ts' & Ht & Hnil & ->).
  apply Forall2_nil_inv_l in Hnil as ->.
  apply entryLag_Some in Ht as (pwm' & Hpwm & ->). simpl in Hpwm.
  rewrite Hw in Hpwm. injection Hpwm as <-. simpl.
  assert (joinLags pOffsets (range pwm)
          ≡ₚ [ {| PartitionID := 0; Lag := 20 |}; {| PartitionID := 1; Lag := 0 |} ])
    as Hperm.
  { rewrite (joinLags_Permutation _ _ _ (range_perm pwm)).
    vm_compute. apply Permutation_swap. }
  exists res, (joinLags pOffsets (range pwm)).
  split; [done|]. split; [|done].
  assert (Int64.sum (Lag <$> joinLags pOffsets (range pwm)) = 20) as Hsum.
  { by rewrite (sum_Permutation _ _ (fmap_Permutation Lag _ _ Hperm)). }
  assert (length (joinLags pOffsets (range pwm)) = 2%nat) as Hlen
    by (by rewrite Hperm).
  rewrite Hres, topicLag_joinLags. cbv zeta. cbn [fst snd].
  rewrite Hsum, Hlen. done.
Qed.

End Scenario.

Lemma scenario_topicA_witness :
  ∃ res lags,
    runSnapshot scenario ["g1"; "g2"]%string = (Ok res, tt)
    ∧ res !! "g1"%string
      = Some {| GroupID := "g1";
                TopicLags :=
                  SliceOf [ {| Topic := "topicA";
                               SummedLag := 20;
                               PartitionCount := 3;
                               PartitionsWithOffset := 2;
                               PartitionLags := SliceOf lags |} ] |}
    ∧ lags ≡ₚ [ {| PartitionID := 0; Lag := 20 |}; {| PartitionID := 1; Lag := 0 |} ].
Proof.
  apply (scenario_topicA (order := canonicalOrder) (snapshotService scenario)
           ["g1"; "g2"]%string tt tt scenarioOffsets scenarioWaterMarks).
  - fetched_snapshot.
  - intros (group & topic & _ & [pOffsets Hp] & Hw).
    destruct (decide (topic = "topicA"%string)) as [->|Hne].
    + vm_compute in Hw. discriminate Hw.
    + destruct (decide (group = "g1"%string)) as [->|Hg].
      * unfold topicsOf in Hp. rewrite groupOffsets_fmap in Hp.
        unfold scenarioOffsets in Hp. rewrite map_fmap_singleton, lookup_singleton_eq in Hp.
        simpl in Hp. rewrite convertOffsets_fmap in Hp. simpl in Hp.
        rewrite map_fmap_singleton, lookup_singleton_ne in Hp by done. discriminate Hp.
      * unfold topicsOf in Hp. rewrite groupOffsets_fmap in Hp.
        unfold scenarioOffsets in Hp.
        rewrite map_fmap_singleton, lookup_singleton_ne in Hp by done. discriminate Hp.
  - constructor.
  - vm_compute; reflexivity.
  - vm_compute; reflexivity.
Defined.

(** The same run with the entries visited in the reverse order: the same
    numbers, partitionLags the other way round. *)
Example scenario_reverse_order :
  (getConsumerGroupLags (order := reverseOrder) (snapshotService scenario)
     ["g1"; "g2"]%string tt).1
  = Ok {[ "g1"%string :=
            {| GroupID := "g1";
               TopicLags :=
                 SliceOf [ {| Topic := "topicA";
                              SummedLag := 20;
                              PartitionCount := 3;
                              PartitionsWithOffset := 2;
                              PartitionLags :=
                                SliceOf [ {| PartitionID := 0; Lag := 20 |};
                                          {| PartitionID := 1; Lag := 0 |} ] |} ] |};
          "g2"%string := {| GroupID := "g2"; TopicLags := make |} ]}.
Proof. vm_compute. reflexivity. Qed.

Section Lags.
Context {order : RangeOrder} {World : Type} (kafkaSvc : KafkaService World).
Implicit Types (w : World) (res : gmap string ConsumerGroupLag).

(** C2, amended. For a partition with watermark [w] and committed offset
    [o], the reported lag is the [int64] difference clamped at 0; it is
    [w - o] when [w >= o] and 0 when [w < o] whenever [w - o] is an
    [int64], which is the case for all offsets and watermarks that are not
    negative.  The partition has an entry in partitionLags in every case. *)
Theorem reportedLag_difference
    groups w w' offsets waterMarks res group topic pID pwm watermark groupOffset :
  fetched kafkaSvc groups w offsets waterMarks w' →
  getConsumerGroupLags kafkaSvc groups w = (Ok res, w') →
  group ∈ groups →
  waterMarks !! topic = Some pwm → pwm !! pID = Some watermark →
  committedOffset (groupOffsets offsets) group topic pID = Some groupOffset →
  reportedLag res group topic pID = Some (Z.max 0 (Int64.sub watermark groupOffset))
  ∧ (Int64.in_range (watermark - groupOffset) →
     reportedLag res group topic pID
     = Some (if decide (groupOffset ≤ watermark) then watermark - groupOffset else 0)).
Proof.
  intros Hf Hrun Hin Hw Hp Ho.
  rewrite (run_reportedLag _ _ _ _ _ _ _ Hf Hrun) by done.
  rewrite Hw. simpl. rewrite Hp. simpl. rewrite Ho. simpl.
  rewrite clampLag_max. split; [done|].
  intros Hrange. rewrite sub_exact by done. f_equal. case_decide; lia.
Qed.

(** C10. A block with offset -1 reaches the offset index as the committed
    offset -1.  For a partition with watermark [w] it is joined like any
    other offset: the partition is among those counted by
    partitionsWithOffset, it has an entry in partitionLags, and its lag is
    [w + 1] in [int64] arithmetic, 0 if that is negative. *)
Theorem sentinel_offset_joined
    groups w w' offsets waterMarks res group topic pID r blocks b pwm watermark :
  fetched kafkaSvc groups w offsets waterMarks w' →
  getConsumerGroupLags kafkaSvc groups w = (Ok res, w') →
  group ∈ groups →
  offsets !! group = Some r → Blocks r !! topic = Some blocks →
  blocks !! pID = Some b → Offset b = -1 →
  waterMarks !! topic = Some pwm → pwm !! pID = Some watermark →
  committedOffset (groupOffsets offsets) group topic pID = Some (-1)
  ∧ ∃ t lag,
      lag = (let lag := Int64.add watermark 1 in if decide (lag < 0) then 0 else lag)
      ∧ topicLagOf res group topic = Some t
      ∧ PartitionsWithOffset t = Z.of_nat (size (withOffset (convertBlocks blocks) pwm))
      ∧ withOffset (convertBlocks blocks) pwm !! pID = Some watermark
      ∧ partitionLagOf t pID = Some {| PartitionID := pID; Lag := lag |}
      ∧ reportedLag res group topic pID = Some lag
      ∧ (-1 ≤ watermark < Int64.max_int → lag = watermark + 1).
Proof.
  intros Hf Hrun Hin Hr Hblocks Hb Hoff Hw Hp.
  assert (committedOffset (groupOffsets offsets) group topic pID = Some (-1)) as Ho.
  { rewrite committedOffset_block, Hr. simpl. rewrite Hblocks. simpl.
    rewrite Hb. simpl. by rewrite Hoff. }
  assert (topicsOf (groupOffsets offsets) group !! topic = Some (convertBlocks blocks))
    as Ht.
  { unfold topicsOf. rewrite groupOffsets_fmap, lookup_fmap, Hr. simpl.
    by rewrite convertOffsets_fmap, lookup_fmap, Hblocks. }
  assert (convertBlocks blocks !! pID = Some (-1)) as Hc.
  { by rewrite convertBlocks_fmap, lookup_fmap, Hb, <- Hoff. }
  assert (Int64.sub watermark (-1) = Int64.add watermark 1) as Hsub.
  { unfold Int64.sub, Int64.add. f_equal; lia. }
  split; [done|].
  exists (topicLag topic (convertBlocks blocks) pwm), (clampLag (Int64.add watermark 1)).
  split; [done|]. split.
  { rewrite (run_topicLagOf _ _ _ _ _ _ _ Hf Hrun) by done.
    rewrite Ht. simpl. by rewrite Hw. }
  split.
  { rewrite topicLag_joinLags. simpl. by rewrite length_joinLags_withOffset. }
  split.
  { apply map_lookup_filter_Some. split; [done|]. simpl. by eexists. }
  split.
  { rewrite partitionLagOf_topicLag, Hp. simpl. rewrite Hc. simpl. by rewrite Hsub. }
  split.
  { rewrite (run_reportedLag _ _ _ _ _ _ _ Hf Hrun) by done.
    rewrite Hw. simpl. rewrite Hp. simpl. rewrite Ho. simpl. by rewrite Hsub. }
  intros Hrange. unfold Int64.add. rewrite wrap_id.
  - unfold clampLag. case_decide; lia.
  - unfold Int64.in_range, Int64.min_int, Int64.max_int in *. lia.
Qed.

Lemma Topic_entries waterMarks (entries : list (string * partitionOffsets)) ts :
  Forall2 (λ e t, entryLag waterMarks e = Some t) entries ts →
  Topic <$> ts = entries.*1.
Proof.
  induction 1 as [|e t entries ts He _ IH]; [done|].
  rewrite !fmap_cons. by rewrite IH, (Topic_entryLag _ _ _ He).
Qed.

(** C8, amended. The topicLags of a requested group have exactly one
    TopicLag for every topic of the group's offset map and none for any
    other topic.  A topic whose entry in the offset map has no partition is
    therefore present, with partitionsWithOffset 0 and empty
    partitionLags. *)
Theorem topicLags_follow_offset_map groups w w' offsets waterMarks res group topic :
  fetched kafkaSvc groups w offsets waterMarks w' →
  getConsumerGroupLags kafkaSvc groups w = (Ok res, w') →
  group ∈ groups →
  (¬ hasOffsetsFor (groupOffsets offsets) group topic →
   topicLagOf res group topic = None)
  ∧ (hasOffsetsFor (groupOffsets offsets) group topic →
     ∃ t, topicLagOf res group topic = Some t ∧ Topic t = topic)
  ∧ (∀ pOffsets,
       topicsOf (groupOffsets offsets) group !! topic = Some pOffsets →
       (∀ pID, pOffsets !! pID = None) →
       ∃ t, topicLagOf res group topic = Some t
            ∧ PartitionsWithOffset t = 0 ∧ PartitionLags t = make)
  ∧ ∃ cgl, res !! group = Some cgl
           ∧ NoDup (Topic <$> elems (TopicLags cgl))
           ∧ ∀ t, t ∈ elems (TopicLags cgl) →
                  hasOffsetsFor (groupOffsets offsets) group (Topic t).
Proof.
  intros Hf Hrun Hin.
  pose proof (run_topicLagOf _ _ _ _ _ _ _ Hf Hrun group topic Hin) as Hlag.
  unfold hasOffsetsFor. split; [|split; [|split]].
  - intros Hno. rewrite Hlag.
    destruct (topicsOf (groupOffsets offsets) group !! topic); [|done].
    destruct Hno. by eexists.
  - intros [pOffsets Hp].
    destruct (run_watermarks _ _ _ _ _ _ _ Hf Hrun group topic Hin) as [pwm Hw].
    { unfold hasOffsetsFor. rewrite Hp. by eexists. }
    exists (topicLag topic pOffsets pwm). rewrite Hlag, Hp. simpl. rewrite Hw.
    split; [done|]. by rewrite topicLag_joinLags.
  - intros pOffsets Hp Hnone.
    destruct (run_watermarks _ _ _ _ _ _ _ Hf Hrun group topic Hin) as [pwm Hw].
    { unfold hasOffsetsFor. rewrite Hp. by eexists. }
    exists (topicLag topic pOffsets pwm). rewrite Hlag, Hp. simpl. rewrite Hw.
    split; [done|]. rewrite topicLag_joinLags. simpl.
    assert (joinLags pOffsets (range pwm) = []) as ->; [|done].
    apply elem_of_nil_inv. intros pl (? & o & _ & Ho & _)%elem_of_joinLags.
    by rewrite Hnone in Ho.
  - destruct (run_requested _ _ _ _ _ _ _ Hf Hrun _ Hin) as (ts & Hres & Hall).
    eexists. split; [done|]. simpl. split.
    + rewrite (Topic_entries _ _ _ Hall). apply NoDup_fst_range.
    + intros t Ht.
      destruct (run_topicLag _ _ _ _ _ _ _ Hf Hrun _ _ _ Hres Ht)
        as (pOffsets & _ & Hp & _).
      by eexists.
Qed.

(** C3. The run fails exactly in the four cases: the bulk offset fetch
    fails, the partition listing of some topic fails, the watermark fetch
    fails, or a requested group has offsets for a topic without watermarks.
    In each case the result is one error and no report.  For a client whose
    partition listing does not depend on the state, any topic of the list
    that cannot be listed makes the run fail.  The error for the missing
    watermarks is returned if and only if the fetches went through and a
    requested group has offsets for a topic that the watermark index
    lacks. *)
Theorem fail_fast groups w :
  (∀ e w', stageFailure kafkaSvc groups w e w' ↔
           getConsumerGroupLags kafkaSvc groups w = (Err e, w'))
  ∧ (∀ e w' res w'', stageFailure kafkaSvc groups w e w' →
                     getConsumerGroupLags kafkaSvc groups w ≠ (Ok res, w''))
  ∧ (∀ listing offsets w1 topic e,
       (∀ topic w, Partitions kafkaSvc topic w = (listing topic, w)) →
       ListConsumerGroupOffsetsBulk kafkaSvc groups w = (Ok offsets, w1) →
       topic ∈ consumedTopics (groupOffsets offsets) → listing topic = Err e →
       getConsumerGroupLags kafkaSvc groups w = (Err ErrPartitionList, w1))
  ∧ (∀ w', getConsumerGroupLags kafkaSvc groups w = (Err ErrNoWatermark, w') ↔
           ∃ offsets waterMarks,
             fetched kafkaSvc groups w offsets waterMarks w'
             ∧ missingWatermark (groupOffsets offsets) waterMarks groups).
Proof.
  split; [|split; [|split]].
  - intros e w'. symmetry. apply getConsumerGroupLags_Err.
  - intros e w' res w'' Hfail%getConsumerGroupLags_Err. congruence.
  - intros listing offsets w1 topic e Hpure Ho Hin Herr.
    unfold getConsumerGroupLags. unfold bind at 1. unfold callOr at 1. rewrite Ho.
    unfold bind at 1.
    by rewrite (listPartitions_any_fails _ listing _ _ _ topic e Hpure Hin Herr).
  - intros w'. rewrite getConsumerGroupLags_Err. split.
    + inversion 1; subst. eauto.
    + intros (offsets & waterMarks & Hf & Hmiss). by eapply WatermarkMissing.
Qed.

End Lags.

Lemma extreme_reportedLag minus :
  lagIsDifference minus →
  reportedLag (reportOf (runSnapshot extreme ["g1"%string])) "g1" "topicA" 0
  = Some (minus Int64.max_int (-1)).
Proof.
  intros Hclaim.
  rewrite (Hclaim canonicalOrder unit (snapshotService extreme) ["g1"%string] tt tt
             extremeOffsets extremeWaterMarks
             (reportOf (runSnapshot extreme ["g1"%string]))
             "g1"%string "topicA"%string 0 {[ 0 := Int64.max_int ]}
             Int64.max_int (-1)).
  - by rewrite decide_True.
  - fetched_snapshot.
  - vm_compute; reflexivity.
  - constructor.
  - vm_compute; reflexivity.
  - vm_compute; reflexivity.
  - vm_compute; reflexivity.
  - split; vm_compute; discriminate.
  - split; vm_compute; discriminate.
Qed.

(** C2 as it is written fails: with the largest watermark and the committed
    offset -1 the difference is 2^63, which the [int64] subtraction wraps to
    the smallest [int64] and the clamp turns into 0, although the watermark is
    above the offset. *)
Lemma lagIsDifference_overflow : ¬ lagIsDifference Z.sub.
Proof.
  intros Hlag%extreme_reportedLag. vm_compute in Hlag. discriminate Hlag.
Qed.

(** Reading the difference in [int64] arithmetic does not save the sentence:
    there it asks for the smallest [int64] as the lag. *)
Lemma lagIsDifference_int64_overflow : ¬ lagIsDifference Int64.sub.
Proof.
  intros Hlag%extreme_reportedLag. vm_compute in Hlag. discriminate Hlag.
Qed.

Lemma reportedLag_difference_witness :
  reportedLag (reportOf (runSnapshot stale ["g1"%string])) "g1" "topicA" 0 = Some 0.
Proof.
  refine (proj2 (reportedLag_difference (order := canonicalOrder) (snapshotService stale)
                   ["g1"%string] tt tt staleOffsets staleWaterMarks
                   (reportOf (runSnapshot stale ["g1"%string]))
                   "g1"%string "topicA"%string 0 {[ 0 := 100 ]} 100 105 _ _ _ _ _ _) _).
  - fetched_snapshot.
  - vm_compute; reflexivity.
  - constructor.
  - vm_compute; reflexivity.
  - vm_compute; reflexivity.
  - vm_compute; reflexivity.
  - split; vm_compute; discriminate.
Defined.

Lemma sentinel_offset_joined_witness :
  reportedLag (reportOf (runSnapshot sentinel ["g1"%string])) "g1" "topicA" 0 = Some 42.
Proof.
  destruct (sentinel_offset_joined (order := canonicalOrder) (snapshotService sentinel)
              ["g1"%string] tt tt sentinelOffsets sentinelWaterMarks
              (reportOf (runSnapshot sentinel ["g1"%string]))
              "g1"%string "topicA"%string 0
              {| Blocks := {[ "topicA"%string := {[ 0 := block (-1) ]} ]} |}
              {[ 0 := block (-1) ]} (block (-1)) {[ 0 := 41 ]} 41)
    as (_ & t & lag & _ & _ & _ & _ & _ & Hlag & Hexact).
  - fetched_snapshot.
  - vm_compute; reflexivity.
  - constructor.
  - vm_compute; reflexivity.
  - vm_compute; reflexivity.
  - vm_compute; reflexivity.
  - reflexivity.
  - vm_compute; reflexivity.
  - vm_compute; reflexivity.
  - rewrite Hlag, Hexact; [reflexivity|]. split; vm_compute; [discriminate|reflexivity].
Defined.

(** C8 as it is written fails: a response that names a topic without any
    partition block leaves the topic in the offset map, and the group gets a
    TopicLag for it with empty partitionLags. *)
Lemma topicWithoutOffsetsAbsent_bareTopic : ¬ topicWithoutOffsetsAbsent.
Proof.
  intros Hclaim.
  specialize (Hclaim canonicalOrder unit (snapshotService bareTopic) ["g1"%string] tt tt
                bareTopicOffsets bareTopicWaterMarks
                (reportOf (runSnapshot bareTopic ["g1"%string]))
                "g1"%string "topicA"%string).
  assert (topicLagOf (reportOf (runSnapshot bareTopic ["g1"%string])) "g1" "topicA" = None)
    as Hlag.
  { apply Hclaim.
    - fetched_snapshot.
    - vm_compute; reflexivity.
    - constructor.
    - intros pID. vm_compute. reflexivity. }
  vm_compute in Hlag. discriminate Hlag.
Qed.

(** C7 as it is written fails on the same response: the group has no
    committed offset anywhere, and its topicLags is not empty. *)
Lemma groupWithoutOffsetsEmpty_bareTopic : ¬ groupWithoutOffsetsEmpty.
Proof.
  intros Hclaim.
  specialize (Hclaim canonicalOrder unit (snapshotService bareTopic) ["g1"%string] tt tt
                bareTopicOffsets bareTopicWaterMarks
                (reportOf (runSnapshot bareTopic ["g1"%string])) "g1"%string).
  assert (reportOf (runSnapshot bareTopic ["g1"%string]) !! "g1"%string
          = Some {| GroupID := "g1"; TopicLags := make |}) as Hentry.
  { apply Hclaim.
    - fetched_snapshot.
    - vm_compute; reflexivity.
    - constructor.
    - intros topic pID. rewrite committedOffset_block.
      unfold bareTopicOffsets. rewrite lookup_singleton_eq. simpl.
      destruct (decide (topic = "topicA"%string)) as [->|Hne].
      + rewrite lookup_singleton_eq. simpl. by rewrite lookup_empty.
      + by rewrite lookup_singleton_ne. }
  vm_compute in Hentry. congruence.
Qed.

Lemma topicLags_follow_offset_map_witness :
  ∃ t, topicLagOf (reportOf (runSnapshot bareTopic ["g1"%string])) "g1" "topicA" = Some t
       ∧ PartitionsWithOffset t = 0 ∧ PartitionLags t = make.
Proof.
  destruct (topicLags_follow_offset_map (order := canonicalOrder)
              (snapshotService bareTopic) ["g1"%string] tt tt
              bareTopicOffsets bareTopicWaterMarks
              (reportOf (runSnapshot bareTopic ["g1"%string]))
              "g1"%string "topicA"%string) as (_ & _ & Hbare & _).
  - fetched_snapshot.
  - vm_compute; reflexivity.
  - constructor.
  - apply (Hbare ∅); [vm_compute; reflexivity|]. intros pID. apply lookup_empty.
Defined.

Lemma fail_fast_witness :
  runSnapshot unanswered ["g1"%string] = (Err ErrNoWatermark, tt).
Proof.
  apply (fail_fast (order := canonicalOrder) (snapshotService unanswered) ["g1"%string] tt).
  exists scenarioOffsets, ∅. split.
  - fetched_snapshot.
  - exists "g1"%string, "topicA"%string. split; [constructor|].
    split; [|reflexivity]. eexists. vm_compute. reflexivity.
Defined.

(** ** The calls on the partition listing *)

Section Topics.
Context {order : RangeOrder}.
Implicit Types (offsetsByGroup : gmap string (gmap string partitionOffsets)).

Lemma foldl_snoc_fst {A} (l : list (string * A)) (topics : list string) :
  foldl (λ (topics : list string) (e : string * A), topics ++ [e.1]) topics l
  = topics ++ l.*1.
Proof.
  revert topics. induction l as [|e l IH]; intros topics; simpl.
  - by rewrite app_nil_r.
  - rewrite IH. by rewrite <- app_assoc.
Qed.

Lemma foldl_topics (gs : list (string * gmap string partitionOffsets))
    (topics : list string) :
  foldl (λ (topics : list string) (g : string * gmap string partitionOffsets),
           foldl (λ (topics : list string) (e : string * partitionOffsets), topics ++ [e.1])
                 topics (range g.2))
        topics gs
  = topics ++ (gs ≫= λ g, (range g.2).*1).
Proof.
  revert topics. induction gs as [|g gs IH]; intros topics.
  - by rewrite app_nil_r.
  - cbn [foldl]. rewrite IH, foldl_snoc_fst, bind_cons. by rewrite <- app_assoc.
Qed.

(** The topic list is the concatenation, over the groups, of the topics of
    their offset maps. *)
Lemma consumedTopics_bind offsetsByGroup :
  consumedTopics offsetsByGroup = range offsetsByGroup ≫= λ g, (range g.2).*1.
Proof.
  unfold consumedTopics. by rewrite foldl_topics.
Qed.

Lemma elem_of_consumedTopics offsetsByGroup topic :
  topic ∈ consumedTopics offsetsByGroup ↔
  ∃ group, hasOffsetsFor offsetsByGroup group topic.
Proof.
  rewrite consumedTopics_bind, list_elem_of_bind. unfold hasOffsetsFor, topicsOf. split.
  - intros ([group topics] & Htopic & Hg). exists group.
    apply elem_of_range in Hg. rewrite Hg. simpl. by apply elem_of_fst_range.
  - intros [group Hsome].
    destruct (offsetsByGroup !! group) as [topics|] eqn:Hg; simpl in Hsome.
    + exists (group, topics). split; [by apply elem_of_fst_range|by apply elem_of_range].
    + rewrite lookup_empty in Hsome. by destruct Hsome.
Qed.

Lemma length_filter_NoDup (l : list string) topic :
  NoDup l →
  length (filter (λ x, x = topic) l) = if decide (topic ∈ l) then 1%nat else 0%nat.
Proof.
  induction 1 as [|x l Hx Hnd IH]; [done|].
  rewrite filter_cons. destruct (decide (x = topic)) as [->|Hne].
  - rewrite decide_True by constructor. simpl. rewrite IH. by rewrite decide_False.
  - rewrite IH. destruct (decide (topic ∈ l)) as [Hin|Hout].
    + rewrite decide_True; [done|by constructor].
    + rewrite decide_False; [done|]. by intros [?|?]%elem_of_cons.
Qed.

Lemma length_filter_range `{Countable K} {A} (P : K * A → Prop)
    `{∀ x, Decision (P x)} (m : gmap K A) :
  length (filter P (range m)) = size (filter P m).
Proof.
  rewrite map_filter_alt, map_size_list_to_map.
  - by rewrite (range_perm m).
  - eapply NoDup_fmap_fst.
    + intros k a b Ha%list_elem_of_filter Hb%list_elem_of_filter.
      destruct Ha as [_ Ha], Hb as [_ Hb]. exact (map_to_list_unique _ _ _ _ Ha Hb).
    + apply NoDup_filter, NoDup_map_to_list.
Qed.

(** A topic occurs in the topic list once for every group whose offset
    map has it. *)
Lemma count_consumedTopics offsetsByGroup topic :
  length (filter (λ x, x = topic) (consumedTopics offsetsByGroup))
  = size (filter (λ g : string * gmap string partitionOffsets, is_Some (g.2 !! topic))
                 offsetsByGroup).
Proof.
  rewrite consumedTopics_bind, <- length_filter_range.
  induction (range offsetsByGroup) as [|g gs IH]; [done|].
  rewrite bind_cons, filter_app, length_app, IH, filter_cons.
  rewrite length_filter_NoDup by apply NoDup_fst_range.
  destruct (decide (topic ∈ (range g.2).*1)) as [Hin|Hout].
  - apply elem_of_fst_range in Hin. by rewrite decide_True.
  - rewrite elem_of_fst_range in Hout. by rewrite decide_False.
Qed.

End Topics.

Section Calls.
Context {order : RangeOrder} {World : Type} (kafkaSvc : KafkaService World).
Implicit Types (w : World) (log : list Call) (acc : gmap string (list Z)).

Lemma listedTopics_app log1 log2 :
  listedTopics (log1 ++ log2) = listedTopics log1 ++ listedTopics log2.
Proof. apply omap_app. Qed.

Lemma listedTopics_partitions (topics : list string) :
  listedTopics (CallPartitions <$> topics) = topics.
Proof.
  induction topics as [|topic topics IH]; [done|].
  rewrite fmap_cons.
  change (listedTopics (CallPartitions topic :: (CallPartitions <$> topics)))
    with (topic :: listedTopics (CallPartitions <$> topics)).
  by rewrite IH.
Qed.

(** Under observation the listing loop does what it does otherwise, and
    asks for the topics in order, up to the first failure. *)
Lemma listPartitions_spy topics acc w log :
  ∃ asked,
    listPartitions (spy kafkaSvc) topics acc (w, log)
    = ((listPartitions kafkaSvc topics acc w).1,
       ((listPartitions kafkaSvc topics acc w).2, log ++ (CallPartitions <$> asked)))
    ∧ asked `prefix_of` topics
    ∧ (∀ tp w2, listPartitions kafkaSvc topics acc w = (Ok tp, w2) → asked = topics).
Proof.
  revert acc w log. induction topics as [|topic topics IH]; intros acc w log.
  - exists []. simpl. unfold ret. simpl. by rewrite app_nil_r.
  - simpl. unfold bind, callOr. simpl.
    destruct (Partitions kafkaSvc topic w) as [[ps|e] w1] eqn:Hp; simpl.
    + destruct (IH (<[topic := ps]> acc) w1 (log ++ [CallPartitions topic]))
        as (asked & Hrun & Hpre & Hall).
      exists (topic :: asked). rewrite Hrun. split; [|split].
      * by rewrite <- app_assoc.
      * by apply prefix_cons.
      * intros tp w2 Hok. f_equal. by eapply Hall.
    + exists [topic]. split; [done|]. split; [|done].
      by apply prefix_cons, prefix_nil.
Qed.

Lemma listPartitions_keys topics acc w tp w2 :
  listPartitions kafkaSvc topics acc w = (Ok tp, w2) →
  ∀ topic, is_Some (tp !! topic) ↔ topic ∈ topics ∨ is_Some (acc !! topic).
Proof.
  revert acc w. induction topics as [|t topics IH]; intros acc w Hl topic.
  - injection Hl as <- <-. split; [by right|]. by intros [?%elem_of_nil|?].
  - simpl in Hl. unfold bind, callOr in Hl.
    destruct (Partitions kafkaSvc t w) as [[ps|e] w1]; [|done].
    rewrite (IH _ _ Hl), elem_of_cons, lookup_insert_is_Some.
    destruct (decide (t = topic)) as [->|Hne]; [by intuition|].
    split; [intros [?|[?|[_ ?]]]|intros [[?|?]|?]]; auto; congruence.
Qed.

(** The topics the listing is asked for during a run. *)
Lemma run_listedTopics groups w offsets w1 :
  ListConsumerGroupOffsetsBulk kafkaSvc groups w = (Ok offsets, w1) →
  ∃ asked,
    listedTopics (getConsumerGroupLags (spy kafkaSvc) groups (w, [])).2.2 = asked
    ∧ asked `prefix_of` consumedTopics (groupOffsets offsets)
    ∧ (∀ tp w2,
         listPartitions kafkaSvc (consumedTopics (groupOffsets offsets)) ∅ w1
         = (Ok tp, w2) →
         asked = consumedTopics (groupOffsets offsets)
         ∧ CallHighWaterMarks tp
           ∈ (getConsumerGroupLags (spy kafkaSvc) groups (w, [])).2.2).
Proof.
  intros Ho.
  destruct (listPartitions_spy (consumedTopics (groupOffsets offsets)) ∅ w1
              [CallListOffsets groups]) as (asked & Hrun & Hpre & Hall).
  assert ((getConsumerGroupLags (spy kafkaSvc) groups (w, [])).2.2
          = [CallListOffsets groups] ++ (CallPartitions <$> asked)
            ++ match (listPartitions kafkaSvc
                        (consumedTopics (groupOffsets offsets)) ∅ w1).1 with
               | Ok tp => [CallHighWaterMarks tp]
               | Err _ => []
               end) as Hlog.
  { unfold getConsumerGroupLags, bind, callOr, callThrough, liftResult.
    simpl. rewrite Ho. simpl. rewrite Hrun.
    destruct (listPartitions kafkaSvc _ ∅ w1) as [[tp|e] w2]; simpl.
    - by destruct (HighWaterMarks kafkaSvc tp w2) as [[waterMarks|e] w3].
    - by rewrite app_nil_r. }
  exists asked. rewrite Hlog. split; [|split; [done|]].
  - rewrite !listedTopics_app, listedTopics_partitions. simpl.
    destruct (listPartitions kafkaSvc _ ∅ w1) as [[tp|e] w2]; simpl;
      by rewrite app_nil_r.
  - intros tp w2 Hl. split; [by eapply Hall|]. rewrite Hl. simpl.
    rewrite !elem_of_cons, elem_of_app, list_elem_of_singleton. auto.
Qed.


End Calls.



(** * Further properties of the code *)

(** ** GetTopicLag *)

(** X1. [GetTopicLag] returns the first TopicLag of the group with the given
    topic name, and [nil] exactly when the group has none. *)
Theorem GetTopicLag_first (c : ConsumerGroupLag) (topicName : string) :
  match GetTopicLag c topicName with
  | Some t =>
      ∃ before after,
        elems (TopicLags c) = before ++ t :: after
        ∧ Topic t = topicName
        ∧ Forall (λ t', Topic t' ≠ topicName) before
  | None => Forall (λ t', Topic t' ≠ topicName) (elems (TopicLags c))
  end.
Proof.
  unfold GetTopicLag. induction (elems (TopicLags c)) as [|lag lags IH]; simpl.
  - constructor.
  - case_decide as Hlag.
    + by exists [], lags.
    + destruct (scanTopicLag topicName lags) as [t|].
      * destruct IH as (before & after & -> & Ht & Hbefore).
        exists (lag :: before), after. split; [done|]. split; [done|].
        by constructor.
      * by constructor.
Qed.

(** ** The offset index *)

Section OffsetIndex.
Context {order : RangeOrder}.

(** X2. [convertOffsets] keeps every topic and every partition of the
    response and nothing else, with the offset field of the block as the
    value, whatever the order of the two loops; the index of lines 69-72 has
    the converted response of every group of the fetch result. *)
Theorem offset_index_closed_form :
  (∀ offsets : OffsetFetchResponse,
     convertOffsets offsets = blockOffsets <$> Blocks offsets)
  ∧ (∀ offsets : gmap string OffsetFetchResponse,
       groupOffsets offsets = (λ r, blockOffsets <$> Blocks r) <$> offsets).
Proof.
  assert (∀ offsets : OffsetFetchResponse,
            convertOffsets offsets = blockOffsets <$> Blocks offsets)
    as Hconv.
  { intros offsets. rewrite convertOffsets_fmap. apply map_fmap_ext.
    intros topic blocks _. apply convertBlocks_fmap. }
  split; [done|]. intros offsets. rewrite groupOffsets_fmap.
  apply map_fmap_ext. intros group r _. apply Hconv.
Qed.

(** ** The join does not depend on the iteration order *)

Lemma topicLag_sameLag (order1 order2 : RangeOrder) topic pOffsets (pwm : gmap Z Z) :
  sameLag (topicLag (order := order1) topic pOffsets pwm)
          (topicLag (order := order2) topic pOffsets pwm).
Proof.
  rewrite !topicLag_joinLags. unfold sameLag. simpl.
  assert (joinLags pOffsets (range (RangeOrder := order1) pwm)
          ≡ₚ joinLags pOffsets (range (RangeOrder := order2) pwm)) as Hperm.
  { apply joinLags_Permutation.
    by rewrite (range_perm (RangeOrder := order1) pwm),
               (range_perm (RangeOrder := order2) pwm). }
  split; [done|]. split.
  { apply sum_Permutation. by rewrite Hperm. }
  split; [done|]. split; [by rewrite Hperm|done].
Qed.

End OffsetIndex.

(** X3. Two runs of the join of a topic that visit the watermarks in
    different orders give the same topic, summedLag, partitionCount and
    partitionsWithOffset, and the same partitionLags up to their order. *)
Theorem topicLag_order_independent (order1 order2 : RangeOrder)
    topic (pOffsets : partitionOffsets) (partitionWaterMarks : gmap Z Z) :
  let t1 := topicLag (order := order1) topic pOffsets partitionWaterMarks in
  let t2 := topicLag (order := order2) topic pOffsets partitionWaterMarks in
  Topic t1 = Topic t2
  ∧ SummedLag t1 = SummedLag t2
  ∧ PartitionCount t1 = PartitionCount t2
  ∧ PartitionsWithOffset t1 = PartitionsWithOffset t2
  ∧ elems (PartitionLags t1) ≡ₚ elems (PartitionLags t2).
Proof.
  intros t1 t2. subst t1 t2. rewrite !topicLag_joinLags. simpl.
  assert (joinLags pOffsets (range (RangeOrder := order1) partitionWaterMarks)
          ≡ₚ joinLags pOffsets (range (RangeOrder := order2) partitionWaterMarks))
    as Hperm.
  { apply joinLags_Permutation.
    transitivity (map_to_list partitionWaterMarks); [apply range_perm|].
    symmetry. apply range_perm. }
  split; [done|]. split; [|split; [done|split; [by rewrite Hperm|done]]].
  apply sum_Permutation, fmap_Permutation, Hperm.
Qed.

(** ** The report *)

Section Report.
Context {order : RangeOrder} {World : Type} (kafkaSvc : KafkaService World).
Implicit Types (w : World) (res : gmap string ConsumerGroupLag)
               (pOffsets : partitionOffsets).

(** X4. The report has an entry for a group exactly when the group was
    requested, even if the offset fetch returned other groups, and every
    entry carries its key as groupId. *)
Theorem report_keys groups w w' res :
  getConsumerGroupLags kafkaSvc groups w = (Ok res, w') →
  (∀ group, is_Some (res !! group) ↔ group ∈ groups)
  ∧ (∀ group cgl, res !! group = Some cgl → GroupID cgl = group).
Proof.
  intros Hrun.
  destruct (run_fetched _ _ _ _ _ Hrun) as (offsets & waterMarks & Hf).
  split.
  - intros group. split.
    + intros [cgl Hres]. by destruct (run_lookup _ _ _ _ _ _ _ Hf Hrun _ _ Hres).
    + intros Hin. destruct (run_requested _ _ _ _ _ _ _ Hf Hrun _ Hin) as (ts & -> & _).
      by eexists.
  - intros group cgl Hres.
    by destruct (run_lookup _ _ _ _ _ _ _ Hf Hrun _ _ Hres) as (_ & ts & -> & _).
Qed.

Lemma PartitionID_joinLags pOffsets (l : list (Z * Z)) :
  PartitionID <$> joinLags pOffsets l
  = (filter (λ e : Z * Z, is_Some (pOffsets !! e.1)) l).*1.
Proof.
  induction l as [|e l IH]; [done|].
  rewrite joinLags_cons, filter_cons. unfold joinEntry.
  case_decide as Hd.
  - destruct Hd as [o Ho]. simpl in Ho. rewrite Ho.
    cbn [fmap option_fmap option_map]. by rewrite !fmap_cons, IH.
  - destruct (pOffsets !! e.1) as [o|] eqn:Ho; [|done].
    destruct Hd. simpl. by eexists.
Qed.

(** X5. The partitionLags of a TopicLag have one entry for every partition
    that has both a watermark and an offset of the group, and no other and
    no second one: a partition without offset is left out, and so is an
    offset for a partition without watermark. *)
Theorem partitionLags_joined groups w w' offsets waterMarks res group cgl t :
  fetched kafkaSvc groups w offsets waterMarks w' →
  getConsumerGroupLags kafkaSvc groups w = (Ok res, w') →
  res !! group = Some cgl → t ∈ elems (TopicLags cgl) →
  NoDup (PartitionID <$> elems (PartitionLags t))
  ∧ ∀ pID,
      pID ∈ PartitionID <$> elems (PartitionLags t) ↔
      is_Some (waterMarks !! Topic t ≫= λ pwm, pwm !! pID)
      ∧ is_Some (committedOffset (groupOffsets offsets) group (Topic t) pID).
Proof.
  intros Hf Hrun Hres Ht.
  destruct (run_topicLag _ _ _ _ _ _ _ Hf Hrun _ _ _ Hres Ht)
    as (pOffsets & pwm & Hp & Hw & Heq).
  unfold committedOffset. rewrite Hp, Hw. simpl.
  assert (elems (PartitionLags t) = joinLags pOffsets (range pwm)) as ->
    by (by rewrite Heq, topicLag_joinLags).
  rewrite PartitionID_joinLags. split.
  - eapply NoDup_fmap_fst.
    + intros pID a b [_ Ha]%list_elem_of_filter [_ Hb]%list_elem_of_filter.
      apply elem_of_range in Ha, Hb. congruence.
    + apply NoDup_filter. eapply NoDup_fmap_1, NoDup_fst_range.
  - intros pID. rewrite list_elem_of_fmap. split.
    + intros ([p watermark] & -> & [Hsome Hin]%list_elem_of_filter).
      apply elem_of_range in Hin. simpl in *. split; [by eexists|done].
    + intros [[watermark Hwm] Hsome]. exists (pID, watermark). split; [done|].
      apply list_elem_of_filter. split; [done|]. by apply elem_of_range.
Qed.

(** X6. In every TopicLag of a report partitionsWithOffset is the number of
    entries of partitionLags, and partitionLags is never the nil slice. *)
Theorem partitionsWithOffset_is_length groups w w' res group cgl t :
  getConsumerGroupLags kafkaSvc groups w = (Ok res, w') →
  res !! group = Some cgl → t ∈ elems (TopicLags cgl) →
  PartitionsWithOffset t = Z.of_nat (length (elems (PartitionLags t)))
  ∧ is_nil (PartitionLags t) = false.
Proof.
  intros Hrun Hres Ht.
  destruct (run_fetched _ _ _ _ _ Hrun) as (offsets & waterMarks & Hf).
  destruct (run_topicLag _ _ _ _ _ _ _ Hf Hrun _ _ _ Hres Ht)
    as (pOffsets & pwm & _ & _ & ->).
  by rewrite topicLag_joinLags.
Qed.

(** X7. If on every joined partition of a topic the watermark is not above
    the committed offset (and their difference is an [int64]), as when the
    group has caught up, every lag of the TopicLag is 0 and so is
    summedLag. *)
Theorem caught_up_no_lag groups w w' offsets waterMarks res group cgl t :
  fetched kafkaSvc groups w offsets waterMarks w' →
  getConsumerGroupLags kafkaSvc groups w = (Ok res, w') →
  res !! group = Some cgl → t ∈ elems (TopicLags cgl) →
  (∀ pID watermark groupOffset,
     (waterMarks !! Topic t ≫= λ pwm, pwm !! pID) = Some watermark →
     committedOffset (groupOffsets offsets) group (Topic t) pID = Some groupOffset →
     Int64.min_int ≤ watermark - groupOffset ≤ 0) →
  SummedLag t = 0 ∧ Forall (λ pl, Lag pl = 0) (elems (PartitionLags t)).
Proof.
  intros Hf Hrun Hres Ht Hbehind.
  destruct (run_topicLag _ _ _ _ _ _ _ Hf Hrun _ _ _ Hres Ht)
    as (pOffsets & pwm & Hp & Hw & Heq).
  unfold committedOffset in Hbehind. rewrite Hp, Hw in Hbehind. simpl in Hbehind.
  assert (Forall (λ pl, Lag pl = 0) (joinLags pOffsets (range pwm))) as Hzero.
  { apply Forall_forall. intros pl (watermark & groupOffset & Hin & Ho & ->)%elem_of_joinLags.
    apply elem_of_range in Hin. specialize (Hbehind _ _ _ Hin Ho).
    rewrite sub_exact.
    - unfold clampLag. case_decide; lia.
    - unfold Int64.in_range, Int64.max_int, Int64.min_int in *. lia. }
  rewrite Heq, topicLag_joinLags. simpl. split; [|done].
  rewrite sum_wrap.
  assert (Int64.sumZ (Lag <$> joinLags pOffsets (range pwm)) = 0) as ->; [|done].
  induction Hzero as [|pl l Hpl _ IH]; [done|].
  rewrite fmap_cons. unfold Int64.sumZ in *. simpl. lia.
Qed.

(** X8. Every number of a report is a value of its Go type: a lag lies
    between 0 and the largest [int64], summedLag is an [int64] (after an
    overflow it can be negative), and the two counters are not negative. *)
Theorem report_fields_in_range groups w w' res group cgl t :
  getConsumerGroupLags kafkaSvc groups w = (Ok res, w') →
  res !! group = Some cgl → t ∈ elems (TopicLags cgl) →
  Int64.in_range (SummedLag t)
  ∧ 0 ≤ PartitionsWithOffset t
  ∧ 0 ≤ PartitionCount t
  ∧ Forall (λ pl, 0 ≤ Lag pl ≤ Int64.max_int) (elems (PartitionLags t)).
Proof.
  intros Hrun Hres Ht.
  destruct (run_fetched _ _ _ _ _ Hrun) as (offsets & waterMarks & Hf).
  destruct (run_topicLag _ _ _ _ _ _ _ Hf Hrun _ _ _ Hres Ht)
    as (pOffsets & pwm & _ & _ & ->).
  rewrite topicLag_joinLags. simpl.
  split; [rewrite sum_wrap; apply wrap_in_range|].
  split; [lia|]. split; [lia|].
  apply Forall_forall. intros pl (watermark & groupOffset & _ & _ & ->)%elem_of_joinLags.
  split; [apply clampLag_nonneg|].
  pose proof (wrap_in_range (watermark - groupOffset)) as [_ Hmax].
  unfold clampLag, Int64.sub. case_decide; [|done].
  unfold Int64.max_int. lia.
Qed.

(** X9. The only error of the client that reaches the caller is the one of
    the watermark fetch, which is handed on as it is; a failure of the offset
    fetch or of the partition listing is replaced by a fixed error. *)
Theorem error_origin groups w e w' :
  getConsumerGroupLags kafkaSvc groups w = (Err e, w') →
  match e with
  | ErrClient msg =>
      ∃ offsets w1 topicPartitions w2,
        ListConsumerGroupOffsetsBulk kafkaSvc groups w = (Ok offsets, w1)
        ∧ listPartitions kafkaSvc (consumedTopics (groupOffsets offsets)) ∅ w1
          = (Ok topicPartitions, w2)
        ∧ HighWaterMarks kafkaSvc topicPartitions w2 = (Err msg, w')
  | ErrListOffsets =>
      ∃ msg, ListConsumerGroupOffsetsBulk kafkaSvc groups w = (Err msg, w')
  | ErrPartitionList =>
      ∃ offsets w1, ListConsumerGroupOffsetsBulk kafkaSvc groups w = (Ok offsets, w1)
                    ∧ ∃ topic w2 msg,
                        topic ∈ consumedTopics (groupOffsets offsets)
                        ∧ Partitions kafkaSvc topic w2 = (Err msg, w')
  | ErrNoWatermark =>
      ∃ offsets waterMarks, fetched kafkaSvc groups w offsets waterMarks w'
  end.
Proof.
  intros Hfail%getConsumerGroupLags_Err.
  destruct Hfail as [msg w1 Ho
                    |offsets w1 listed topic rest tp w2 msg w3 Ho Htopics Hok Herr
                    |offsets w1 tp w2 msg w3 Ho Hl Hh
                    |offsets waterMarks w3 Hf Hmiss].
  - by exists msg.
  - exists offsets, w1. split; [done|]. exists topic, w2, msg. split; [|done].
    rewrite Htopics, elem_of_app, elem_of_cons. auto.
  - by exists offsets, w1, tp, w2.
  - by exists offsets, waterMarks.
Qed.

(** X10. A request for no group succeeds with an empty report as soon as the
    fetches go through, whatever offsets the client returns. *)
Theorem empty_request w w' offsets waterMarks :
  fetched kafkaSvc [] w offsets waterMarks w' →
  getConsumerGroupLags kafkaSvc [] w = (Ok ∅, w').
Proof.
  intros Hf. apply getConsumerGroupLags_Ok. by exists offsets, waterMarks.
Qed.

End Report.

(** ** The calls of a run *)

Section Protocol.
Context {order : RangeOrder} {World : Type} (kafkaSvc : KafkaService World).
Implicit Types (w : World) (log : list Call) (acc : gmap string (list Z)).

(** The listing loop under observation: the result is the one without
    observation, and the log grows by the topics up to the failing one. *)
Lemma listPartitions_spy_log topics acc w log :
  match listPartitions kafkaSvc topics acc w with
  | (Ok tp, w2) =>
      listPartitions (spy kafkaSvc) topics acc (w, log)
      = (Ok tp, (w2, log ++ (CallPartitions <$> topics)))
  | (Err e, w2) =>
      ∃ listed topic rest,
        topics = listed ++ topic :: rest
        ∧ listPartitions (spy kafkaSvc) topics acc (w, log)
          = (Err e, (w2, log ++ (CallPartitions <$> listed ++ [topic])))
  end.
Proof.
  revert acc w log. induction topics as [|topic topics IH]; intros acc w log.
  - simpl. unfold ret. by rewrite app_nil_r.
  - simpl. unfold bind, callOr. simpl.
    destruct (Partitions kafkaSvc topic w) as [[ps|e] w1] eqn:Hp; simpl.
    + specialize (IH (<[topic := ps]> acc) w1 (log ++ [CallPartitions topic])).
      destruct (listPartitions kafkaSvc topics _ w1) as [[tp|e] w2].
      * rewrite IH. by rewrite <- app_assoc.
      * destruct IH as (listed & t & rest & -> & ->).
        exists (topic :: listed), t, rest. split; [done|]. by rewrite <- app_assoc.
    + by exists [], topic, topics.
Qed.


Lemma listPartitions_stateless (listing : string → result clientError (list Z))
    topics acc w tp w' :
  (∀ topic w, Partitions kafkaSvc topic w = (listing topic, w)) →
  listPartitions kafkaSvc topics acc w = (Ok tp, w') →
  w' = w
  ∧ ∀ topic,
      tp !! topic =
      if decide (topic ∈ topics)
      then match listing topic with Ok ps => Some ps | Err _ => None end
      else acc !! topic.
Proof.
  intros Hpure. revert acc. induction topics as [|t topics IH]; intros acc Hl.
  - injection Hl as <- <-. split; [done|]. intros topic.
    rewrite decide_False; [done|]. by intros ?%elem_of_nil.
  - simpl in Hl. unfold bind, callOr in Hl. rewrite Hpure in Hl.
    destruct (listing t) as [ps|e] eqn:Ht; [|done].
    destruct (IH _ Hl) as [-> Htp]. split; [done|]. intros topic.
    rewrite Htp. destruct (decide (topic ∈ topics)) as [Hin|Hout].
    + rewrite decide_True; [done|by apply elem_of_cons; right].
    + destruct (decide (topic = t)) as [->|Hne].
      * rewrite decide_True by (by apply elem_of_cons; left).
        by rewrite lookup_insert_eq, Ht.
      * rewrite decide_False by (by intros [?|?]%elem_of_cons).
        by rewrite lookup_insert_ne.
Qed.

(** X12. For a client whose partition listing does not depend on the state,
    the map that goes to the watermark fetch has exactly the topics of the
    topic list, each with the partitions the listing returns for it; listing
    a topic a second time changes nothing. *)
Theorem listed_partitions_stateless
    (listing : string → result clientError (list Z)) topics w topicPartitions w' :
  (∀ topic w, Partitions kafkaSvc topic w = (listing topic, w)) →
  listPartitions kafkaSvc topics ∅ w = (Ok topicPartitions, w') →
  w' = w
  ∧ (∀ topic, topic ∈ topics → ∃ ps, listing topic = Ok ps)
  ∧ ∀ topic ps,
      topicPartitions !! topic = Some ps ↔ topic ∈ topics ∧ listing topic = Ok ps.
Proof.
  intros Hpure Hl.
  destruct (listPartitions_stateless listing _ _ _ _ _ Hpure Hl) as [-> Htp].
  split; [done|]. split.
  - intros topic Hin. destruct (listing topic) as [ps|e] eqn:Ht; [by eexists|].
    pose proof (listPartitions_any_fails _ listing _ ∅ w _ _ Hpure Hin Ht). congruence.
  - intros topic ps. rewrite Htp, lookup_empty. case_decide as Hin.
    + destruct (listing topic) as [ps'|e]; split.
      * intros [= ->]. done.
      * by intros [_ [= ->]].
      * done.
      * by intros [_ ?].
    + split; [done|]. by intros [? _].
Qed.

End Protocol.

(** ** The loop over the groups *)

Section Groups.
Implicit Types (offsetsByGroup : gmap string (gmap string partitionOffsets))
               (waterMarks : gmap string (gmap Z Z)).

Lemma missingWatermark_groups offsetsByGroup waterMarks groups1 groups2 :
  (∀ group, group ∈ groups1 → group ∈ groups2) →
  missingWatermark offsetsByGroup waterMarks groups1 →
  missingWatermark offsetsByGroup waterMarks groups2.
Proof. intros Hsub (group & topic & Hin & Hrest). exists group, topic. auto. Qed.

Lemma computeLags_topicLagOf {order : RangeOrder}
    offsetsByGroup waterMarks groups res group topic :
  computeLags offsetsByGroup waterMarks groups ∅ = Ok res →
  topicLagOf res group topic =
  if decide (group ∈ groups)
  then topicsOf offsetsByGroup group !! topic ≫= λ pOffsets,
         topicLag topic pOffsets <$> waterMarks !! topic
  else None.
Proof.
  intros Hc. destruct (computeLags_Ok _ _ _ _ _ Hc group) as [Hin Hout].
  unfold topicLagOf, GetTopicLag. case_decide as Hgroup.
  - destruct (Hin Hgroup) as (tls & Hg & ->).
    apply groupTopicLags_Ok in Hg as (ts & -> & Hall). simpl.
    destruct (topicsOf offsetsByGroup group !! topic) as [pOffsets|] eqn:Ht; simpl.
    + apply elem_of_range in Ht.
      by rewrite (scanTopicLag_in _ _ _ _ _ Hall (NoDup_fst_range _) Ht).
    + apply (scanTopicLag_notin _ _ _ _ Hall).
      rewrite elem_of_fst_range, Ht. by intros [? ?].
  - by rewrite (Hout Hgroup), lookup_empty.
Qed.

(** X13. The loop over the requested groups depends on the set of the
    groups only, up to the iteration order of the maps: asking for a group
    twice, or for the groups in another order, while every map may be
    visited in another order, fails with the same error or succeeds with a
    report that has the same groups and, for every group and topic, a topic
    lag that differs at most in the order of its partitionLags. *)
Theorem computeLags_groups_set (order1 order2 : RangeOrder)
    offsetsByGroup waterMarks groups1 groups2 :
  (∀ group, group ∈ groups1 ↔ group ∈ groups2) →
  match computeLags (order := order1) offsetsByGroup waterMarks groups1 ∅,
        computeLags (order := order2) offsetsByGroup waterMarks groups2 ∅ with
  | Ok res1, Ok res2 =>
      (∀ group, is_Some (res1 !! group) ↔ is_Some (res2 !! group))
      ∧ ∀ group topic,
          option_Forall2 sameLag (topicLagOf res1 group topic)
                                 (topicLagOf res2 group topic)
  | Err e1, Err e2 => e1 = e2
  | _, _ => False
  end.
Proof.
  intros Hset.
  destruct (computeLags (order := order1) _ _ _ _) as [r1|e1] eqn:H1;
    destruct (computeLags (order := order2) _ _ _ _) as [r2|e2] eqn:H2.
  - split.
    + intros group.
      destruct (computeLags_Ok _ _ _ _ _ H1 group) as [Hin1 Hout1].
      destruct (computeLags_Ok _ _ _ _ _ H2 group) as [Hin2 Hout2].
      destruct (decide (group ∈ groups1)) as [Hin|Hout].
      * destruct (Hin1 Hin) as (tls1 & _ & ->).
        destruct (Hin2 (proj1 (Hset group) Hin)) as (tls2 & _ & ->).
        split; by eexists.
      * rewrite (Hout1 Hout), Hout2; [done|]. by rewrite <- Hset.
    + intros group topic.
      rewrite (computeLags_topicLagOf _ _ _ _ _ _ H1),
              (computeLags_topicLagOf _ _ _ _ _ _ H2).
      destruct (decide (group ∈ groups1)) as [Hin|Hout].
      * rewrite decide_True by (by apply Hset).
        destruct (topicsOf offsetsByGroup group !! topic) as [pOffsets|]; simpl;
          [|constructor].
        destruct (waterMarks !! topic) as [pwm|]; simpl; constructor.
        apply topicLag_sameLag.
      * rewrite decide_False by (by rewrite <- Hset). constructor.
  - apply computeLags_Err in H2 as [_ Hmiss].
    assert (computeLags (order := order1) offsetsByGroup waterMarks groups1 ∅
            = Err ErrNoWatermark) as Herr; [|congruence].
    apply computeLags_Err. split; [done|].
    eapply missingWatermark_groups; [|done]. intros group. apply Hset.
  - apply computeLags_Err in H1 as [_ Hmiss].
    assert (computeLags (order := order2) offsetsByGroup waterMarks groups2 ∅
            = Err ErrNoWatermark) as Herr; [|congruence].
    apply computeLags_Err. split; [done|].
    eapply missingWatermark_groups; [|done]. intros group. apply Hset.
  - apply computeLags_Err in H1 as [-> _]. by apply computeLags_Err in H2 as [-> _].
Qed.

(** X14. The loop over the groups does not depend on the iteration order of
    the maps either: with two orders it fails both times or succeeds both
    times, and the two reports give, for every group and topic, topic lags
    that differ at most in the order of their partitionLags. *)
Theorem computeLags_order_independent (order1 order2 : RangeOrder)
    offsetsByGroup waterMarks groups :
  match computeLags (order := order1) offsetsByGroup waterMarks groups ∅,
        computeLags (order := order2) offsetsByGroup waterMarks groups ∅ with
  | Ok res1, Ok res2 =>
      ∀ group topic,
        option_Forall2 sameLag (topicLagOf res1 group topic) (topicLagOf res2 group topic)
  | Err e1, Err e2 => e1 = e2
  | _, _ => False
  end.
Proof.
  destruct (computeLags (order := order1) _ _ _ _) as [r1|e1] eqn:H1;
    destruct (computeLags (order := order2) _ _ _ _) as [r2|e2] eqn:H2.
  - intros group topic.
    rewrite (computeLags_topicLagOf _ _ _ _ _ _ H1), (computeLags_topicLagOf _ _ _ _ _ _ H2).
    case_decide; [|constructor].
    destruct (topicsOf offsetsByGroup group !! topic) as [pOffsets|]; simpl; [|constructor].
    destruct (waterMarks !! topic) as [pwm|]; simpl; constructor.
    apply topicLag_sameLag.
  - apply computeLags_Err in H2 as [_ Hmiss].
    assert (computeLags (order := order1) offsetsByGroup waterMarks groups ∅
            = Err ErrNoWatermark) as Herr by (by apply computeLags_Err).
    congruence.
  - apply computeLags_Err in H1 as [_ Hmiss].
    assert (computeLags (order := order2) offsetsByGroup waterMarks groups ∅
            = Err ErrNoWatermark) as Herr by (by apply computeLags_Err).
    congruence.
  - apply computeLags_Err in H1 as [-> _]. by apply computeLags_Err in H2 as [-> _].
Qed.

End Groups.

(** ** Examples for the properties above *)

Lemma report_keys_witness :
  is_Some (scenarioReport !! "g2"%string) ↔ "g2"%string ∈ ["g1"; "g2"]%string.
Proof.
  refine (proj1 (report_keys (order := canonicalOrder) (snapshotService scenario)
                   ["g1"; "g2"]%string tt tt scenarioReport _) "g2"%string).
  vm_compute; reflexivity.
Defined.

Lemma partitionLags_joined_witness :
  NoDup (PartitionID <$> elems (PartitionLags scenarioTopicLag)).
Proof.
  refine (proj1 (partitionLags_joined (order := canonicalOrder) (snapshotService scenario)
                   ["g1"; "g2"]%string tt tt scenarioOffsets scenarioWaterMarks
                   scenarioReport "g1"%string scenarioGroupLag scenarioTopicLag
                   _ _ _ _)).
  - fetched_snapshot.
  - vm_compute; reflexivity.
  - vm_compute; reflexivity.
  - simpl. constructor.
Defined.

Lemma partitionsWithOffset_is_length_witness :
  PartitionsWithOffset scenarioTopicLag = 2.
Proof.
  refine (proj1 (partitionsWithOffset_is_length (order := canonicalOrder)
                   (snapshotService scenario) ["g1"; "g2"]%string tt tt
                   scenarioReport "g1"%string scenarioGroupLag scenarioTopicLag _ _ _)).
  - vm_compute; reflexivity.
  - vm_compute; reflexivity.
  - simpl. constructor.
Defined.

Lemma caught_up_no_lag_witness : SummedLag staleTopicLag = 0.
Proof.
  refine (proj1 (caught_up_no_lag (order := canonicalOrder) (snapshotService stale)
                   ["g1"%string] tt tt staleOffsets staleWaterMarks
                   (reportOf (runSnapshot stale ["g1"%string]))
                   "g1"%string staleGroupLag staleTopicLag _ _ _ _ _)).
  - fetched_snapshot.
  - vm_compute; reflexivity.
  - vm_compute; reflexivity.
  - simpl. constructor.
  - intros pID watermark groupOffset Hw Ho. simpl in Hw.
    unfold staleWaterMarks in Hw. rewrite lookup_singleton_eq in Hw. simpl in Hw.
    apply lookup_singleton_Some in Hw as [<- <-].
    vm_compute in Ho. injection Ho as <-.
    split; vm_compute; discriminate.
Defined.

Lemma report_fields_in_range_witness : Int64.in_range (SummedLag scenarioTopicLag).
Proof.
  refine (proj1 (report_fields_in_range (order := canonicalOrder)
                   (snapshotService scenario) ["g1"; "g2"]%string tt tt
                   scenarioReport "g1"%string scenarioGroupLag scenarioTopicLag _ _ _)).
  - vm_compute; reflexivity.
  - vm_compute; reflexivity.
  - simpl. constructor.
Defined.

Lemma error_origin_witness :
  ∃ offsets w1 topicPartitions w2,
    ListConsumerGroupOffsetsBulk (snapshotService brokerDown) ["g1"%string] tt
    = (Ok offsets, w1)
    ∧ listPartitions (snapshotService brokerDown)
        (consumedTopics (order := canonicalOrder)
           (groupOffsets (order := canonicalOrder) offsets)) ∅ w1
      = (Ok topicPartitions, w2)
    ∧ HighWaterMarks (snapshotService brokerDown) topicPartitions w2
      = (Err "broker down"%string, tt).
Proof.
  refine (error_origin (order := canonicalOrder) (snapshotService brokerDown)
            ["g1"%string] tt (ErrClient "broker down") tt _).
  vm_compute; reflexivity.
Defined.

Lemma empty_request_witness : runSnapshot scenario [] = (Ok ∅, tt).
Proof.
  refine (empty_request (order := canonicalOrder) (snapshotService scenario)
            tt tt ∅ scenarioWaterMarks _).
  fetched_snapshot.
Defined.

Lemma listed_partitions_stateless_witness :
  ({[ "topicA"%string := [0; 1; 2] ]} : gmap string (list Z)) !! "topicA"%string
  = Some [0; 1; 2] ↔
  "topicA"%string ∈ ["topicA"%string]
  ∧ match snapPartitions scenario !! "topicA"%string with
    | Some ps => Ok ps
    | None => Err "unknown topic"%string
    end = Ok [0; 1; 2].
Proof.
  refine (proj2 (proj2 (listed_partitions_stateless (snapshotService scenario)
                          (λ topic, match snapPartitions scenario !! topic with
                                    | Some ps => Ok ps
                                    | None => Err "unknown topic"%string
                                    end)
                          ["topicA"%string] tt
                          {[ "topicA"%string := [0; 1; 2] ]} tt _ _))
            "topicA"%string [0; 1; 2]).
  - intros topic w. reflexivity.
  - vm_compute; reflexivity.
Defined.

Lemma computeLags_groups_set_witness :
  match computeLags (order := canonicalOrder)
          (groupOffsets (order := canonicalOrder) scenarioOffsets) scenarioWaterMarks
          ["g1"; "g1"]%string ∅,
        computeLags (order := reverseOrder)
          (groupOffsets (order := canonicalOrder) scenarioOffsets) scenarioWaterMarks
          ["g1"%string] ∅ with
  | Ok res1, Ok res2 =>
      (∀ group, is_Some (res1 !! group) ↔ is_Some (res2 !! group))
      ∧ ∀ group topic,
          option_Forall2 sameLag (topicLagOf res1 group topic)
                                 (topicLagOf res2 group topic)
  | Err e1, Err e2 => e1 = e2
  | _, _ => False
  end.
Proof.
  refine (computeLags_groups_set canonicalOrder reverseOrder
            (groupOffsets (order := canonicalOrder) scenarioOffsets) scenarioWaterMarks
            ["g1"; "g1"]%string ["g1"%string] _).
  intros group. rewrite !elem_of_cons. intuition.
Defined.
